(** * zu: a fluent path-building wrapper around a 2D canvas context

    Shallow embedding of [src/main.js] (class [Drawing]) and the
    properties of its deferred-emission state machine.

    The canvas rendering context [this._] is an external collaborator:
    it is modelled by the sequence of calls and property assignments it
    receives.  Every method of [Drawing] becomes a state transformer over
    the fields of the object that also returns the context commands it
    issued, in order. *)

From Stdlib Require Import List String Bool ZArith Lia.
Import ListNotations.

(** ** JavaScript numbers

    Coordinates, radii and angles are IEEE doubles in the source.  None of
    the path bookkeeping depends on their arithmetic, so numbers are kept
    abstract: a carrier with the handful of operations the source applies
    to them.  [num_seq] is [===] (not assumed reflexive: NaN) and
    [num_truthy] is the coercion used by [&&] and [if]. *)

Class JSNumber (num : Type) : Type := {
  num_lit : Z -> num;
  Tau : num;
  num_add : num -> num -> num;
  num_sub : num -> num -> num;
  num_mul : num -> num -> num;
  num_div : num -> num -> num;
  Math_cos : num -> num;
  Math_sin : num -> num;
  num_seq : num -> num -> bool;
  num_truthy : num -> bool
}.

(** Integer coordinates: a concrete carrier on which the statements below
    are exercised.  The bookkeeping never inspects [Tau], [Math_cos] or
    [Math_sin]; they are only carried into context commands. *)
#[export] Instance ZNumber : JSNumber Z := {|
  num_lit := fun z => z;
  Tau := 6%Z;
  num_add := Z.add;
  num_sub := Z.sub;
  num_mul := Z.mul;
  num_div := Z.div;
  Math_cos := fun _ => 1%Z;
  Math_sin := fun _ => 0%Z;
  num_seq := Z.eqb;
  num_truthy := fun z => negb (Z.eqb z 0)
|}.

(** Fill and stroke styles: [string | CanvasGradient | CanvasPattern]. *)
Inductive paint : Type :=
| paint_string (s : string)
| paint_object (handle : nat).

Definition paint_truthy (p : paint) : bool :=
  match p with
  | paint_string EmptyString => false
  | paint_string _ => true
  | paint_object _ => true
  end.

(** [a || dflt] on an optional string argument. *)
Definition string_or (a : option string) (dflt : string) : string :=
  match a with
  | None => dflt
  | Some EmptyString => dflt
  | Some s => s
  end.

(** [{font?, textAlign?, textBaseline?}] *)
Record TextStyle : Type := mkTextStyle {
  font_ : option string;
  textAlign : option string;
  textBaseline : option string
}.

(** ** The rendering context, as the commands it receives *)

Module Ctx.

Section Commands.

Variable num : Type.

(** Width or height handed to [clearRect]: an explicit number, or the
    default read from [this._.canvas]. *)
Inductive extent : Type :=
| extent_num (n : num)
| canvas_width
| canvas_height.

(** Calls and property assignments received by the rendering context. *)
Inductive command : Type :=
| beginPath
| moveTo (x y : num)
| lineTo (x y : num)
| closePath
| rect (x y w h : num)
| arc (x y radius startAngle endAngle : num) (anticlockwise : option bool)
| ellipse (x y radiusX radiusY rotation startAngle endAngle : num)
          (anticlockwise : option bool)
| arcTo (x1 y1 x2 y2 radius : num)
| bezierCurveTo (x1 y1 x2 y2 x y : num)
| quadraticCurveTo (x1 y1 x y : num)
| stroke
| fill (fillrule : option string)
| strokeText (str : string) (x y : num)
| fillText (str : string) (x y : num)
| assign_style (style : TextStyle)
| set_lineWidth (w : num)
| set_strokeStyle (p : paint)
| set_fillStyle (p : paint)
| clearRect (x y : num) (w h : extent)
| drawImage (src : string) (x y : num)
| drawImage_sized (src : string) (x y w h : num)
| setLineDash (segments : list num)
| set_lineDashOffset (o : num)
| set_lineCap (cap : string)
| set_lineJoin (join : string)
| set_shadowOffsetX (v : num)
| set_shadowOffsetY (v : num)
| set_shadowBlur (v : num)
| set_shadowColor (c : string)
| save
| restore
| rotate (angle : num)
| scale (x y : num)
| translate (x y : num).
End Commands.

Arguments extent_num {num}.
Arguments canvas_width {num}.
Arguments canvas_height {num}.
Arguments beginPath {num}.
Arguments moveTo {num}.
Arguments lineTo {num}.
Arguments closePath {num}.
Arguments rect {num}.
Arguments arc {num}.
Arguments ellipse {num}.
Arguments arcTo {num}.
Arguments bezierCurveTo {num}.
Arguments quadraticCurveTo {num}.
Arguments stroke {num}.
Arguments fill {num}.
Arguments strokeText {num}.
Arguments fillText {num}.
Arguments assign_style {num}.
Arguments set_lineWidth {num}.
Arguments set_strokeStyle {num}.
Arguments set_fillStyle {num}.
Arguments clearRect {num}.
Arguments drawImage {num}.
Arguments drawImage_sized {num}.
Arguments setLineDash {num}.
Arguments set_lineDashOffset {num}.
Arguments set_lineCap {num}.
Arguments set_lineJoin {num}.
Arguments set_shadowOffsetX {num}.
Arguments set_shadowOffsetY {num}.
Arguments set_shadowBlur {num}.
Arguments set_shadowColor {num}.
Arguments save {num}.
Arguments restore {num}.
Arguments rotate {num}.
Arguments scale {num}.
Arguments translate {num}.

End Ctx.

Section DrawingModel.

Context {num : Type} {JSN : JSNumber num}.

(** ** Data model *)

Record Position : Type := mkPos { px : num; py : num }.

(** The closure stored in [drawCurve], defunctionalised: it captures the
    control points and awaits the end point. *)
Inductive CurveFn : Type :=
| arcTo_fn (x y radius : num)
| bezier_fn (x1 y1 x2 y2 : num)
| quadratic_fn (x1 y1 : num).

Definition apply_curve (f : CurveFn) (x y : num) : Ctx.command num :=
  match f with
  | arcTo_fn cx cy radius => Ctx.arcTo cx cy x y radius
  | bezier_fn x1 y1 x2 y2 => Ctx.bezierCurveTo x1 y1 x2 y2 x y
  | quadratic_fn x1 y1 => Ctx.quadraticCurveTo x1 y1 x y
  end.

Definition TextEntry : Type := (string * Position * TextStyle)%type.

(** The fields of a [Drawing] instance (constructor, lines 7-48). *)
Record Drawing : Type := mkDrawing {
  pos : Position;
  posDrawn : bool;
  posStart : option Position;
  pendingText : list TextEntry;
  textStyle : TextStyle;
  pendingPathClose : bool;
  drawCurve : option CurveFn
}.

Definition constructor : Drawing :=
  {| pos := mkPos (num_lit 0) (num_lit 0);
     posDrawn := true;
     posStart := None;
     pendingText := [];
     textStyle := mkTextStyle None None None;
     pendingPathClose := false;
     drawCurve := None |}.

Definition set_pos (v : Position) (d : Drawing) : Drawing :=
  mkDrawing v (posDrawn d) (posStart d) (pendingText d) (textStyle d)
            (pendingPathClose d) (drawCurve d).
Definition set_posDrawn (v : bool) (d : Drawing) : Drawing :=
  mkDrawing (pos d) v (posStart d) (pendingText d) (textStyle d)
            (pendingPathClose d) (drawCurve d).
Definition set_posStart (v : option Position) (d : Drawing) : Drawing :=
  mkDrawing (pos d) (posDrawn d) v (pendingText d) (textStyle d)
            (pendingPathClose d) (drawCurve d).
Definition set_pendingText (v : list TextEntry) (d : Drawing) : Drawing :=
  mkDrawing (pos d) (posDrawn d) (posStart d) v (textStyle d)
            (pendingPathClose d) (drawCurve d).
Definition set_textStyle (v : TextStyle) (d : Drawing) : Drawing :=
  mkDrawing (pos d) (posDrawn d) (posStart d) (pendingText d) v
            (pendingPathClose d) (drawCurve d).
Definition set_pendingPathClose (v : bool) (d : Drawing) : Drawing :=
  mkDrawing (pos d) (posDrawn d) (posStart d) (pendingText d) (textStyle d)
            v (drawCurve d).
Definition set_drawCurve (v : option CurveFn) (d : Drawing) : Drawing :=
  mkDrawing (pos d) (posDrawn d) (posStart d) (pendingText d) (textStyle d)
            (pendingPathClose d) v.

(** ** Methods as state transformers that log context commands *)

Definition Method (A : Type) : Type :=
  Drawing -> A * Drawing * list (Ctx.command num).

Definition ret {A} (a : A) : Method A := fun d => (a, d, []).

Definition bind {A B} (m : Method A) (k : A -> Method B) : Method B :=
  fun d =>
    let r1 := m d in
    let r2 := k (fst (fst r1)) (snd (fst r1)) in
    (fst (fst r2), snd (fst r2), snd r1 ++ snd r2).

(** [this] *)
Definition get : Method Drawing := fun d => (d, d, []).

(** [this.field = v] *)
Definition assign (f : Drawing -> Drawing) : Method unit :=
  fun d => (tt, f d, []).

(** [this._.command(...)] *)
Definition ctx (c : Ctx.command num) : Method unit := fun d => (tt, d, [c]).

Definition when (b : bool) (m : Method unit) : Method unit :=
  if b then m else ret tt.

Notation "x <- m ;; k" := (bind m (fun x => k))
  (at level 61, m at next level, right associativity).
Notation "m ;; k" := (bind m (fun _ => k))
  (at level 61, right associativity).

(** State after a method, and the commands it sent to the context. *)
Definition exec {A} (m : Method A) (d : Drawing) : Drawing := snd (fst (m d)).
Definition emitted {A} (m : Method A) (d : Drawing) : list (Ctx.command num) :=
  snd (m d).

(** ** Internal path management *)

(** [_advancePath (x, y)], lines 58-74. *)
Definition _advancePath (x y : option num) : Method unit :=
  this <- get ;;
  when (negb (posDrawn this))
    match posStart this with
    | None =>
        assign (set_posStart (Some (pos this))) ;;
        ctx (Ctx.moveTo (px (pos this)) (py (pos this)))
    | Some _ =>
        ctx (Ctx.lineTo (px (pos this)) (py (pos this)))
    end ;;
  match x, y with
  | Some x, Some y =>
      assign (set_pos (mkPos x y)) ;;
      assign (set_posDrawn false)
  | _, _ =>
      assign (set_posDrawn true)
  end.

(** [_checkPathClose ()], lines 77-86. *)
Definition _checkPathClose : Method unit :=
  this <- get ;;
  when (pendingPathClose this)
    (assign (set_pendingPathClose false) ;;
     assign (set_pendingText []) ;;
     ctx Ctx.beginPath ;;
     assign (set_posStart None)).

(** ** Points, paths and shapes *)

(** What [func()] yields: a finite sequence of [[x, y]] pairs. *)
Definition generator : Type := list (option num * option num).

(** First argument of [xy]: a generator function or a (possibly missing)
    number. *)
Inductive xarg : Type :=
| xfunc (func : generator)
| xnum (x : option num).

(** [_xyf (func)], lines 148-153. *)
Fixpoint _xyf (func : generator) : Method unit :=
  match func with
  | [] => ret tt
  | (x, y) :: rest => _advancePath x y ;; _xyf rest
  end.

(** [xy (x, y)], lines 95-110. *)
Definition xy (x : xarg) (y : option num) : Method unit :=
  _checkPathClose ;;
  match x with
  | xfunc func => _xyf func
  | xnum x =>
      _advancePath x y ;;
      this <- get ;;
      match drawCurve this with
      | Some f =>
          ctx (apply_curve f (px (pos this)) (py (pos this))) ;;
          assign (set_drawCurve None)
      | None => ret tt
      end
  end.

(** [xy] with both coordinates given. *)
Definition xy_point (x y : num) : Method unit := xy (xnum (Some x)) (Some y).

Definition x (x : num) : Method unit :=
  this <- get ;; xy_point x (py (pos this)).

Definition y (y : num) : Method unit :=
  this <- get ;; xy_point (px (pos this)) y.

Definition dxy (x y : num) : Method unit :=
  this <- get ;;
  xy_point (num_add (px (pos this)) x) (num_add (py (pos this)) y).

Definition dx (x : num) : Method unit := dxy x (num_lit 0).

Definition dy (y : num) : Method unit := dxy (num_lit 0) y.

(** [close ()], lines 158-172. *)
Definition close : Method unit :=
  _checkPathClose ;;
  _advancePath None None ;;
  this <- get ;;
  match posStart this with
  | Some start =>
      xy_point (px start) (py start) ;;
      _advancePath None None ;;
      assign (set_posStart None)
  | None => ret tt
  end ;;
  ctx Ctx.closePath.

Definition truthy (b : option bool) : bool :=
  match b with Some true => true | _ => false end.

(** [rect (width, height, centered)], lines 180-192. *)
Definition rect (width height : num) (centered : option bool) : Method unit :=
  _checkPathClose ;;
  this <- get ;;
  let x := px (pos this) in
  let y := py (pos this) in
  ctx (Ctx.rect
         (if truthy centered then num_sub x (num_div width (num_lit 2)) else x)
         (if truthy centered then num_sub y (num_div height (num_lit 2)) else y)
         width height) ;;
  assign (set_posDrawn true).

Definition square (size : num) (centered : option bool) : Method unit :=
  rect size size centered.

(** [arc (radius, startAngle, endAngle, anticlockwise)], lines 210-222. *)
Definition arc (radius startAngle endAngle : num)
    (anticlockwise : option bool) : Method unit :=
  _checkPathClose ;;
  this <- get ;;
  ctx (Ctx.arc (px (pos this)) (py (pos this)) radius startAngle endAngle
               anticlockwise) ;;
  assign (set_posDrawn true).

(** [circle (radius)], lines 228-236. *)
Definition circle (radius : num) : Method unit :=
  this <- get ;;
  ctx (Ctx.moveTo (num_add (px (pos this)) radius) (py (pos this))) ;;
  arc radius (num_lit 0) Tau (Some false) ;;
  assign (set_posStart None).

Definition default (a : option num) (dflt : num) : num :=
  match a with Some v => v | None => dflt end.

(** [ellipse (radiusX, radiusY, rotation = 0, startAngle = 0,
    endAngle = Tau, anticlockwise)], lines 247-260. *)
Definition ellipse (radiusX radiusY : num)
    (rotation startAngle endAngle : option num)
    (anticlockwise : option bool) : Method unit :=
  let rotation := default rotation (num_lit 0) in
  let startAngle := default startAngle (num_lit 0) in
  let endAngle := default endAngle Tau in
  _checkPathClose ;;
  this <- get ;;
  let x := px (pos this) in
  let y := py (pos this) in
  when (num_seq startAngle (num_lit 0) && num_seq endAngle Tau)
    (ctx (Ctx.moveTo (num_add x (num_mul radiusX (Math_cos rotation)))
                     (num_add y (num_mul radiusX (Math_sin rotation))))) ;;
  ctx (Ctx.ellipse x y radiusX radiusY rotation startAngle endAngle
                   anticlockwise) ;;
  assign (set_posDrawn true).

(** [arcTo (x, y, radius)], lines 268-272. *)
Definition arcTo (x y radius : num) : Method unit :=
  assign (set_drawCurve (Some (arcTo_fn x y radius))).

(** [curve (x1, y1, x2, y2)], lines 281-287. *)
Definition curve (x1 y1 : num) (x2 y2 : option num) : Method unit :=
  assign (set_drawCurve (Some
    match x2, y2 with
    | Some x2, Some y2 => bezier_fn x1 y1 x2 y2
    | _, _ => quadratic_fn x1 y1
    end)).

(** ** Path manipulation *)

(** [split ()], lines 294-301. *)
Definition split : Method unit :=
  _checkPathClose ;;
  _advancePath None None ;;
  assign (set_posStart None).

(** [join ()], lines 306-314. *)
Definition join : Method unit :=
  _checkPathClose ;;
  _advancePath None None ;;
  this <- get ;;
  xy_point (px (pos this)) (py (pos this)).

(** ** Drawing *)

(** First argument of [stroke]: a line width or a colour. *)
Inductive stroke_size : Type :=
| size_number (n : num)
| size_paint (p : paint).

Definition render_text (draw : string -> num -> num -> Ctx.command num)
    (entry : TextEntry) : list (Ctx.command num) :=
  let '(str, p, style) := entry in
  [Ctx.assign_style style; draw str (px p) (py p)].

(** [this.pendingText.forEach (...)] *)
Fixpoint forEach_text (draw : string -> num -> num -> Ctx.command num)
    (entries : list TextEntry) : Method unit :=
  match entries with
  | [] => ret tt
  | (str, p, style) :: rest =>
      ctx (Ctx.assign_style style) ;;
      ctx (draw str (px p) (py p)) ;;
      forEach_text draw rest
  end.

Definition when_paint (p : option paint) (set : paint -> Ctx.command num)
  : Method unit :=
  match p with
  | Some c => when (paint_truthy c) (ctx (set c))
  | None => ret tt
  end.

(** [stroke (size, color)], lines 323-343. *)
Definition stroke (size : option stroke_size) (color : option paint)
  : Method unit :=
  match size with
  | Some (size_number n) =>
      ctx (Ctx.set_lineWidth n) ;;
      when_paint color Ctx.set_strokeStyle
  | Some (size_paint p) => when_paint (Some p) Ctx.set_strokeStyle
  | None => ret tt
  end ;;
  _advancePath None None ;;
  this <- get ;;
  forEach_text Ctx.strokeText (pendingText this) ;;
  ctx Ctx.stroke ;;
  assign (set_pendingPathClose true).

(** [fill (color, fillrule)], lines 350-365. *)
Definition fill (color : option paint) (fillrule : option string)
  : Method unit :=
  when_paint color Ctx.set_fillStyle ;;
  _advancePath None None ;;
  this <- get ;;
  forEach_text Ctx.fillText (pendingText this) ;;
  ctx (Ctx.fill fillrule) ;;
  assign (set_pendingPathClose true).

(** [clear (width, height, x = 0, y = 0)], lines 374-379. *)
Definition clear (width height x y : option num) : Method unit :=
  let width :=
    match width with Some w => Ctx.extent_num w | None => Ctx.canvas_width end in
  let height :=
    match height with Some h => Ctx.extent_num h | None => Ctx.canvas_height end in
  let x := default x (num_lit 0) in
  let y := default y (num_lit 0) in
  _checkPathClose ;;
  ctx (Ctx.clearRect x y width height).

(** [image (src, width, height)], lines 387-400. *)
Definition image (src : string) (width height : option num) : Method unit :=
  _checkPathClose ;;
  this <- get ;;
  match width, height with
  | Some w, Some h =>
      if num_truthy w && num_truthy h
      then ctx (Ctx.drawImage_sized src (px (pos this)) (py (pos this)) w h)
      else ctx (Ctx.drawImage src (px (pos this)) (py (pos this)))
  | _, _ => ctx (Ctx.drawImage src (px (pos this)) (py (pos this)))
  end ;;
  assign (set_posDrawn true).

(** ** Style, colour and text *)

Inductive dash_arg : Type :=
| dash_number (n : num)
| dash_list (segments : list num).

(** [dash (lineDash, offset = 0)], lines 409-413. *)
Definition dash (lineDash : option dash_arg) (offset : option num)
  : Method unit :=
  ctx (Ctx.setLineDash
         match lineDash with
         | Some (dash_number n) => [n]
         | Some (dash_list l) => l
         | None => [num_lit 5]
         end) ;;
  ctx (Ctx.set_lineDashOffset (default offset (num_lit 0))).

(** [lineStyle (cap, join)], lines 420-425. *)
Definition lineStyle (cap join : string) : Method unit :=
  ctx (Ctx.set_lineCap cap) ;;
  ctx (Ctx.set_lineJoin join).

(** [shadow (opts)], lines 435-441. *)
Definition shadow (ox oy blur : num) (color : string) : Method unit :=
  ctx (Ctx.set_shadowOffsetX ox) ;;
  ctx (Ctx.set_shadowOffsetY oy) ;;
  ctx (Ctx.set_shadowBlur blur) ;;
  ctx (Ctx.set_shadowColor color).

(** The style object after
    [textStyle.textAlign = alignment || 'start'] and
    [textStyle.textBaseline = baseline || 'alphabetic']. *)
Definition aligned (style : TextStyle) (alignment baseline : option string)
  : TextStyle :=
  mkTextStyle (font_ style)
              (Some (string_or alignment "start"))
              (Some (string_or baseline "alphabetic")).

(** [text (str, alignment, baseline)], lines 449-458. *)
Definition text (str : string) (alignment baseline : option string)
  : Method unit :=
  _checkPathClose ;;
  this <- get ;;
  assign (set_textStyle (aligned (textStyle this) alignment baseline)) ;;
  this <- get ;;
  assign (set_pendingText
            (pendingText this ++ [(str, pos this, textStyle this)])) ;;
  assign (set_posDrawn true).

(** [font (font)], lines 464-468. *)
Definition font (f : string) : Method unit :=
  this <- get ;;
  assign (set_textStyle
            (mkTextStyle (Some f) (textAlign (textStyle this))
                         (textBaseline (textStyle this)))).

(** ** Context transformation *)

Definition save : Method unit := ctx Ctx.save.
Definition restore : Method unit := ctx Ctx.restore.
Definition rotate (angle : num) : Method unit := ctx (Ctx.rotate angle).
Definition scale (x y : num) : Method unit := ctx (Ctx.scale x y).
Definition translate (x y : num) : Method unit := ctx (Ctx.translate x y).

(** ** The public interface as a datatype of calls *)

Inductive Call : Type :=
| call_xy (x : xarg) (y : option num)
| call_x (v : num)
| call_y (v : num)
| call_dxy (x y : num)
| call_dx (v : num)
| call_dy (v : num)
| call_close
| call_rect (width height : num) (centered : option bool)
| call_square (size : num) (centered : option bool)
| call_arc (radius startAngle endAngle : num) (anticlockwise : option bool)
| call_circle (radius : num)
| call_ellipse (radiusX radiusY : num) (rotation startAngle endAngle : option num)
               (anticlockwise : option bool)
| call_arcTo (x y radius : num)
| call_curve (x1 y1 : num) (x2 y2 : option num)
| call_split
| call_join
| call_stroke (size : option stroke_size) (color : option paint)
| call_fill (color : option paint) (fillrule : option string)
| call_clear (width height x y : option num)
| call_image (src : string) (width height : option num)
| call_dash (lineDash : option dash_arg) (offset : option num)
| call_lineStyle (cap join : string)
| call_shadow (ox oy blur : num) (color : string)
| call_text (str : string) (alignment baseline : option string)
| call_font (f : string)
| call_save
| call_restore
| call_rotate (angle : num)
| call_scale (x y : num)
| call_translate (x y : num).

Definition invoke (c : Call) : Method unit :=
  match c with
  | call_xy a b => xy a b
  | call_x v => x v
  | call_y v => y v
  | call_dxy a b => dxy a b
  | call_dx v => dx v
  | call_dy v => dy v
  | call_close => close
  | call_rect w h c => rect w h c
  | call_square s c => square s c
  | call_arc r sa ea acw => arc r sa ea acw
  | call_circle r => circle r
  | call_ellipse rx ry rot sa ea acw => ellipse rx ry rot sa ea acw
  | call_arcTo a b r => arcTo a b r
  | call_curve x1 y1 x2 y2 => curve x1 y1 x2 y2
  | call_split => split
  | call_join => join
  | call_stroke size color => stroke size color
  | call_fill color rule => fill color rule
  | call_clear w h a b => clear w h a b
  | call_image src w h => image src w h
  | call_dash l o => dash l o
  | call_lineStyle cap j => lineStyle cap j
  | call_shadow ox oy blur color => shadow ox oy blur color
  | call_text str a b => text str a b
  | call_font f => font f
  | call_save => save
  | call_restore => restore
  | call_rotate a => rotate a
  | call_scale a b => scale a b
  | call_translate a b => translate a b
  end.

(** A chained expression [d.m1(...).m2(...)...]. *)
Fixpoint chain (cs : list Call) : Method unit :=
  match cs with
  | [] => ret tt
  | c :: rest => invoke c ;; chain rest
  end.

(** ** Vocabulary of the statements *)

(** The paint operations. *)
Definition is_paint (c : Call) : bool :=
  match c with
  | call_stroke _ _ | call_fill _ _ => true
  | _ => false
  end.

(** The methods whose body runs [_checkPathClose]. *)
Definition checks_path (c : Call) : bool :=
  match c with
  | call_xy _ _ | call_x _ | call_y _ | call_dxy _ _ | call_dx _ | call_dy _
  | call_close | call_rect _ _ _ | call_square _ _ | call_arc _ _ _ _
  | call_circle _ | call_ellipse _ _ _ _ _ _ | call_split | call_join
  | call_clear _ _ _ _ | call_image _ _ _ | call_text _ _ _ => true
  | _ => false
  end.

(** The path-mutating public operations: point-adding calls, shape
    primitives, [close], [split] and [join]. *)
Definition path_mutating (c : Call) : bool :=
  match c with
  | call_xy _ _ | call_x _ | call_y _ | call_dxy _ _ | call_dx _ | call_dy _
  | call_close | call_rect _ _ _ | call_square _ _ | call_arc _ _ _ _
  | call_circle _ | call_ellipse _ _ _ _ _ _ | call_split | call_join => true
  | _ => false
  end.

Definition is_circle (c : Call) : bool :=
  match c with call_circle _ => true | _ => false end.

(** Point-adding calls that name one destination point. *)
Definition point_adding (c : Call) : bool :=
  match c with
  | call_xy (xnum (Some _)) (Some _)
  | call_x _ | call_y _ | call_dxy _ _ | call_dx _ | call_dy _ => true
  | _ => false
  end.

(** The point such a call records, given the current position. *)
Definition destination (c : Call) (p : Position) : Position :=
  match c with
  | call_xy (xnum (Some a)) (Some b) => mkPos a b
  | call_x v => mkPos v (py p)
  | call_y v => mkPos (px p) v
  | call_dxy a b => mkPos (num_add (px p) a) (num_add (py p) b)
  | call_dx v => mkPos (num_add (px p) v) (num_add (py p) (num_lit 0))
  | call_dy v => mkPos (num_add (px p) (num_lit 0)) (num_add (py p) v)
  | _ => p
  end.

(** The successive destinations of a sequence of point-adding calls. *)
Fixpoint destinations (cs : list Call) (p : Position) : list Position :=
  match cs with
  | [] => []
  | c :: rest => destination c p :: destinations rest (destination c p)
  end.

Definition is_beginPath (c : Ctx.command num) : bool :=
  match c with Ctx.beginPath => true | _ => false end.
Definition is_lineTo (c : Ctx.command num) : bool :=
  match c with Ctx.lineTo _ _ => true | _ => false end.
Definition is_quadratic (c : Ctx.command num) : bool :=
  match c with Ctx.quadraticCurveTo _ _ _ _ => true | _ => false end.
Definition is_curve (c : Ctx.command num) : bool :=
  match c with
  | Ctx.quadraticCurveTo _ _ _ _ | Ctx.bezierCurveTo _ _ _ _ _ _
  | Ctx.arcTo _ _ _ _ _ => true
  | _ => false
  end.

Definition count (p : Ctx.command num -> bool) (l : list (Ctx.command num))
  : nat := List.length (filter p l).

Definition move_to (p : Position) : Ctx.command num :=
  Ctx.moveTo (px p) (py p).
Definition line_to (p : Position) : Ctx.command num :=
  Ctx.lineTo (px p) (py p).

(** What the lazy path reset sends and leaves behind. *)
Definition reset_cmds (d : Drawing) : list (Ctx.command num) :=
  if pendingPathClose d then [Ctx.beginPath] else [].
Definition reset (d : Drawing) : Drawing :=
  if pendingPathClose d
  then mkDrawing (pos d) (posDrawn d) None [] (textStyle d) false (drawCurve d)
  else d.

(** What flushing the recorded position sends and leaves behind. *)
Definition flush_cmds (d : Drawing) : list (Ctx.command num) :=
  if posDrawn d then []
  else match posStart d with
       | None => [move_to (pos d)]
       | Some _ => [line_to (pos d)]
       end.
Definition flushed_start (d : Drawing) : option Position :=
  if posDrawn d then posStart d
  else match posStart d with
       | None => Some (pos d)
       | Some s => Some s
       end.

(** What consuming [drawCurve] at end point [p] sends. *)
Definition curve_cmds (d : Drawing) (p : Position) : list (Ctx.command num) :=
  match drawCurve d with
  | Some f => [apply_curve f (px p) (py p)]
  | None => []
  end.

(** Commands by which [stroke] and [fill] apply their style arguments. *)
Definition stroke_style (size : option stroke_size) (color : option paint)
  : list (Ctx.command num) :=
  match size with
  | Some (size_number n) =>
      Ctx.set_lineWidth n ::
      match color with
      | Some c => if paint_truthy c then [Ctx.set_strokeStyle c] else []
      | None => []
      end
  | Some (size_paint p) =>
      if paint_truthy p then [Ctx.set_strokeStyle p] else []
  | None => []
  end.
Definition fill_style (color : option paint) : list (Ctx.command num) :=
  match color with
  | Some c => if paint_truthy c then [Ctx.set_fillStyle c] else []
  | None => []
  end.

(** The entry a call appends to [pendingText]. *)
Definition queued (c : Call) (d : Drawing) : list TextEntry :=
  match c with
  | call_text str a b => [(str, pos d, aligned (textStyle d) a b)]
  | _ => []
  end.

(** The text commands a paint sends for the queued entries. *)
Definition stroke_texts (l : list TextEntry) : list (Ctx.command num) :=
  flat_map (render_text Ctx.strokeText) l.
Definition fill_texts (l : list TextEntry) : list (Ctx.command num) :=
  flat_map (render_text Ctx.fillText) l.

(** A chain that contains neither [stroke] nor [fill]. *)
Definition no_paint (cs : list Call) : bool :=
  forallb (fun c => negb (is_paint c)) cs.

(** ** Vocabulary of the further properties *)

(** The style and transform methods, which only forward to the context. *)
Definition forwards_only (c : Call) : bool :=
  match c with
  | call_dash _ _ | call_lineStyle _ _ | call_shadow _ _ _ _
  | call_save | call_restore | call_rotate _ | call_scale _ _
  | call_translate _ _ => true
  | _ => false
  end.

(** The methods that draw at the current position and set [posDrawn]
    without going through [_advancePath]. *)
Definition anchored (c : Call) : bool :=
  match c with
  | call_rect _ _ _ | call_square _ _ | call_arc _ _ _ _
  | call_ellipse _ _ _ _ _ _ | call_image _ _ _ | call_text _ _ _ => true
  | _ => false
  end.

(** [close] and [circle], which end with [posStart = null]. *)
Definition restarts_subpath (c : Call) : bool :=
  match c with
  | call_close | call_circle _ => true
  | _ => false
  end.

(** [arcTo] and [curve], which assign [drawCurve]. *)
Definition sets_curve (c : Call) : bool :=
  match c with
  | call_arcTo _ _ _ | call_curve _ _ _ _ => true
  | _ => false
  end.

(** Commands that build or reset the context's current path. *)
Definition is_path_command (c : Ctx.command num) : bool :=
  match c with
  | Ctx.beginPath | Ctx.moveTo _ _ | Ctx.lineTo _ _ | Ctx.closePath
  | Ctx.rect _ _ _ _ | Ctx.arc _ _ _ _ _ _ | Ctx.ellipse _ _ _ _ _ _ _ _
  | Ctx.arcTo _ _ _ _ _ | Ctx.bezierCurveTo _ _ _ _ _ _
  | Ctx.quadraticCurveTo _ _ _ _ => true
  | _ => false
  end.

Definition is_paint_command (c : Ctx.command num) : bool :=
  match c with
  | Ctx.stroke | Ctx.fill _ => true
  | _ => false
  end.

(** Number of [stroke] and [fill] calls in a chain. *)
Definition paints (cs : list Call) : nat := List.length (filter is_paint cs).

(** Reading a trace from left to right while remembering whether a
    [moveTo] has arrived since the last [beginPath]; [None] as soon as a
    [lineTo] arrives when none has. *)
Fixpoint track_start (moved : bool) (l : list (Ctx.command num))
  : option bool :=
  match l with
  | [] => Some moved
  | Ctx.beginPath :: rest => track_start false rest
  | Ctx.moveTo _ _ :: rest => track_start true rest
  | Ctx.lineTo _ _ :: rest => if moved then track_start moved rest else None
  | _ :: rest => track_start moved rest
  end.

Definition well_started (l : list (Ctx.command num)) : bool :=
  match track_start false l with
  | Some _ => true
  | None => false
  end.

(** [posStart] is set only when the trace has a [moveTo] since its last
    [beginPath]. *)
Definition start_recorded (d : Drawing) (moved : bool) : bool :=
  match posStart d with
  | Some _ => moved
  | None => true
  end.

(** A list of points as the pairs a generator yields, and as the
    corresponding [xy (x, y)] calls. *)
Definition pairs_of (ps : list Position) : generator :=
  map (fun p => (Some (px p), Some (py p))) ps.
Definition points_of (ps : list Position) : list Call :=
  map (fun p => call_xy (xnum (Some (px p))) (Some (py p))) ps.

(** ** Sequencing *)

Lemma exec_bind {A B} (m : Method A) (k : A -> Method B) d :
  exec (bind m k) d = exec (k (fst (fst (m d)))) (exec m d).
Proof. reflexivity. Qed.

Lemma emitted_bind {A B} (m : Method A) (k : A -> Method B) d :
  emitted (bind m k) d = emitted m d ++ emitted (k (fst (fst (m d)))) (exec m d).
Proof. reflexivity. Qed.

Lemma exec_seq (m k : Method unit) d :
  exec (m ;; k) d = exec k (exec m d).
Proof. reflexivity. Qed.

Lemma emitted_seq (m k : Method unit) d :
  emitted (m ;; k) d = emitted m d ++ emitted k (exec m d).
Proof. reflexivity. Qed.

Lemma chain_app cs1 cs2 d :
  exec (chain (cs1 ++ cs2)) d = exec (chain cs2) (exec (chain cs1) d).
Proof.
  revert d; induction cs1 as [|c cs1 IH]; intros d; [reflexivity|].
  cbn [chain app]. rewrite !exec_seq. apply IH.
Qed.

(** Normalise a goal and split on the conditions that remain stuck on
    the arguments of a call. *)
Ltac case_step :=
  match goal with
  | |- context [if ?b then _ else _] => destruct b eqn:?
  | |- context [match ?o with Some _ => _ | None => _ end] => destruct o eqn:?
  end.

Ltac evaluate := cbv; repeat (case_step; cbv).

(** Close a conjunction of equations that hold by computation. *)
Ltac settle := rewrite ?app_nil_r; repeat split; reflexivity.

(** ** The internal primitives in closed form *)

Lemma advancePath_closed (a b : option num) (d : Drawing) :
  _advancePath a b d =
  (tt,
   mkDrawing
     match a, b with Some u, Some v => mkPos u v | _, _ => pos d end
     match a, b with Some _, Some _ => false | _, _ => true end
     (flushed_start d) (pendingText d) (textStyle d)
     (pendingPathClose d) (drawCurve d),
   flush_cmds d).
Proof.
  destruct d as [p dr st pt ts pc dc].
  unfold flush_cmds, flushed_start, move_to, line_to.
  destruct a, b, dr, st; reflexivity.
Qed.

Lemma checkPathClose_closed (d : Drawing) :
  _checkPathClose d = (tt, reset d, reset_cmds d).
Proof.
  destruct d as [p dr st pt ts pc dc].
  unfold reset, reset_cmds. destruct pc; reflexivity.
Qed.

(** C3.  [_advancePath (x, y)]: when [posDrawn] is false the stored
    position is first sent to the context, as a [moveTo] when [posStart]
    is null (which also sets [posStart] to a copy of [pos]) and as a
    [lineTo] otherwise; when [posDrawn] is true nothing is sent.  Then, if
    both [x] and [y] are given, [pos] becomes [{x, y}] and [posDrawn]
    false; if either is missing, [posDrawn] becomes true and [pos] is
    unchanged.  No other field changes. *)
Theorem advancePath_spec (a b : option num) (d : Drawing) :
  let d' := exec (_advancePath a b) d in
  emitted (_advancePath a b) d =
    (if posDrawn d then []
     else match posStart d with
          | None => [Ctx.moveTo (px (pos d)) (py (pos d))]
          | Some _ => [Ctx.lineTo (px (pos d)) (py (pos d))]
          end)
  /\ posStart d' =
    (if posDrawn d then posStart d
     else match posStart d with
          | None => Some (pos d)
          | Some s => Some s
          end)
  /\ pos d' = match a, b with Some u, Some v => mkPos u v | _, _ => pos d end
  /\ posDrawn d' = match a, b with Some _, Some _ => false | _, _ => true end
  /\ pendingText d' = pendingText d
  /\ textStyle d' = textStyle d
  /\ pendingPathClose d' = pendingPathClose d
  /\ drawCurve d' = drawCurve d.
Proof.
  unfold exec, emitted. rewrite advancePath_closed. cbn.
  repeat split; reflexivity.
Qed.

Lemma forEach_text_closed draw (entries : list TextEntry) (d : Drawing) :
  forEach_text draw entries d = (tt, d, flat_map (render_text draw) entries).
Proof.
  induction entries as [|[[str p] style] rest IH]; [reflexivity|].
  cbn [forEach_text flat_map render_text]. unfold bind, ctx. cbn [fst snd].
  rewrite IH. reflexivity.
Qed.

Ltac by_cases d :=
  destruct d as [[u v] dr st pt ts pc dc];
  destruct pc, dr, st, dc; reflexivity.

Lemma xy_point_closed (a b : num) (d : Drawing) :
  xy_point a b d =
  (tt,
   mkDrawing (mkPos a b) false (flushed_start (reset d))
             (pendingText (reset d)) (textStyle d) false None,
   reset_cmds d ++ flush_cmds (reset d) ++ curve_cmds d (mkPos a b)).
Proof. by_cases d. Qed.

Lemma split_closed (d : Drawing) :
  split d =
  (tt,
   mkDrawing (pos d) true None (pendingText (reset d)) (textStyle d) false
             (drawCurve d),
   reset_cmds d ++ flush_cmds (reset d)).
Proof. by_cases d. Qed.

Lemma join_closed (d : Drawing) :
  join d =
  (tt,
   mkDrawing (pos d) false (flushed_start (reset d))
             (pendingText (reset d)) (textStyle d) false None,
   reset_cmds d ++ flush_cmds (reset d) ++ curve_cmds d (pos d)).
Proof. by_cases d. Qed.

Lemma close_closed (d : Drawing) :
  close d =
  (tt,
   mkDrawing
     match flushed_start (reset d) with Some s => s | None => pos d end
     true None (pendingText (reset d)) (textStyle d) false
     match flushed_start (reset d) with Some _ => None | None => drawCurve d end,
   reset_cmds d ++ flush_cmds (reset d) ++
   match flushed_start (reset d) with
   | Some s => curve_cmds d s ++ [line_to s]
   | None => []
   end ++ [Ctx.closePath]).
Proof.
  destruct d as [[u v] dr st pt ts pc dc].
  destruct st as [[su sv]|]; destruct pc, dr, dc; reflexivity.
Qed.

Lemma stroke_closed size color (d : Drawing) :
  stroke size color d =
  (tt,
   mkDrawing (pos d) true (flushed_start d) (pendingText d) (textStyle d)
             true (drawCurve d),
   stroke_style size color ++ flush_cmds d ++
   flat_map (render_text Ctx.strokeText) (pendingText d) ++ [Ctx.stroke]).
Proof.
  assert (S : forall d0,
    match size with
    | Some (size_number n) =>
        ctx (Ctx.set_lineWidth n) ;;
        when_paint color Ctx.set_strokeStyle
    | Some (size_paint p) => when_paint (Some p) Ctx.set_strokeStyle
    | None => ret tt
    end d0 = (tt, d0, stroke_style size color)).
  { intros d0.
    destruct size as [[n|q]|], color as [c|];
      cbv [stroke_style when_paint when];
      try destruct (paint_truthy c); try destruct (paint_truthy q);
      reflexivity. }
  unfold stroke, bind. rewrite S. cbn [fst snd].
  rewrite advancePath_closed. cbn [fst snd]. unfold get.
  cbn [fst snd pendingText].
  rewrite forEach_text_closed. reflexivity.
Qed.

Lemma fill_closed color rule (d : Drawing) :
  fill color rule d =
  (tt,
   mkDrawing (pos d) true (flushed_start d) (pendingText d) (textStyle d)
             true (drawCurve d),
   fill_style color ++ flush_cmds d ++
   flat_map (render_text Ctx.fillText) (pendingText d) ++ [Ctx.fill rule]).
Proof.
  assert (S : forall d0,
    when_paint color Ctx.set_fillStyle d0 = (tt, d0, fill_style color)).
  { intros d0. destruct color as [c|]; cbv [fill_style when_paint when];
      try destruct (paint_truthy c); reflexivity. }
  unfold fill, bind. rewrite S. cbn [fst snd].
  rewrite advancePath_closed. cbn [fst snd]. unfold get.
  cbn [fst snd pendingText].
  rewrite forEach_text_closed. reflexivity.
Qed.

(** The named point-adding calls are [xy] at the destination they compute. *)
Lemma invoke_point_adding (c : Call) (d : Drawing) :
  point_adding c = true ->
  invoke c d =
  xy_point (px (destination c (pos d))) (py (destination c (pos d))) d.
Proof.
  destruct c; try discriminate; cbn [point_adding destination invoke].
  - destruct x0 as [g|[u|]]; try discriminate.
    destruct y0; try discriminate. reflexivity.
  - reflexivity.
  - reflexivity.
  - reflexivity.
  - reflexivity.
  - reflexivity.
Qed.

(** ** The lazy path reset comes first, except in [circle] *)

(** Every path-mutating operation other than [circle] starts with the
    pending reset: its first context command is [beginPath]. *)
Lemma reset_comes_first (c : Call) (d : Drawing) :
  path_mutating c = true -> is_circle c = false ->
  pendingPathClose d = true ->
  exists rest, emitted (invoke c) d = Ctx.beginPath :: rest.
Proof.
  intros Hc Hn Hp. destruct d as [p dr st pt ts pc dc]. cbn in Hp. subst pc.
  destruct c; try discriminate; cbv; eexists; reflexivity.
Qed.

(** C1 (where the code departs from the claim).  [circle (radius)] sends
    its [moveTo] before it reaches the path reset inside [arc]: the
    commands are the [moveTo] to the right-most point, then [beginPath]
    when a reset is pending, then the full-turn [arc].  With
    [pendingPathClose] set the first command is therefore [moveTo] and
    [beginPath] comes second. *)
Theorem circle_moves_before_reset (d : Drawing) (radius : num) :
  emitted (circle radius) d =
  Ctx.moveTo (num_add (px (pos d)) radius) (py (pos d)) ::
  (if pendingPathClose d then [Ctx.beginPath] else []) ++
  [Ctx.arc (px (pos d)) (py (pos d)) radius (num_lit 0) Tau (Some false)].
Proof.
  destruct d as [p dr st pt ts pc dc]. cbv.
  destruct pc; reflexivity.
Qed.

(** ** Deferred curves *)

Lemma count_app p (l1 l2 : list (Ctx.command num)) :
  count p (l1 ++ l2) = count p l1 + count p l2.
Proof. unfold count. rewrite filter_app, length_app. reflexivity. Qed.

(** C2 (as the code has it).  From any state, [curve (x1, y1)] followed by
    [xy (x2, y2)] sends: [beginPath] if a reset was pending, then the
    flush of the previously recorded position if it was not yet drawn (a
    [moveTo] when no subpath is open, else a [lineTo] to that previous
    position), then one [quadraticCurveTo (x1, y1, x2, y2)], last.  That
    is the only curve command; a line is sent exactly when the previous
    position was undrawn on an open subpath.  The destination is left
    recorded and undrawn, so the next flush sends one more command to
    [(x2, y2)]: a [lineTo] when a subpath is open, a [moveTo] otherwise. *)
Theorem curve_then_point (d : Drawing) (x1 y1 x2 y2 : num) :
  let m := curve x1 y1 None None ;; xy_point x2 y2 in
  emitted m d =
    reset_cmds d ++ flush_cmds (reset d) ++ [Ctx.quadraticCurveTo x1 y1 x2 y2]
  /\ filter is_quadratic (emitted m d) = [Ctx.quadraticCurveTo x1 y1 x2 y2]
  /\ count is_curve (emitted m d) = 1
  /\ count is_lineTo (emitted m d) =
       (if posDrawn d then 0
        else if pendingPathClose d then 0
        else match posStart d with Some _ => 1 | None => 0 end)
  /\ pos (exec m d) = mkPos x2 y2
  /\ posDrawn (exec m d) = false
  /\ drawCurve (exec m d) = None
  /\ forall a b,
       emitted (_advancePath a b) (exec m d) =
       [match flushed_start (reset d) with
        | None => Ctx.moveTo x2 y2
        | Some _ => Ctx.lineTo x2 y2
        end].
Proof.
  intros m. unfold m.
  destruct d as [[u v] dr st pt ts pc dc].
  destruct pc, dr, st; repeat split; try reflexivity;
    intros a b; destruct a, b; reflexivity.
Qed.

(** ** Points after a paint, a split or a join *)

Lemma emitted_point_adding (c : Call) (d : Drawing) :
  point_adding c = true ->
  emitted (invoke c) d =
    reset_cmds d ++ flush_cmds (reset d) ++ curve_cmds d (destination c (pos d))
  /\ exec (invoke c) d =
    mkDrawing (destination c (pos d)) false (flushed_start (reset d))
              (pendingText (reset d)) (textStyle d) false None.
Proof.
  intros H. unfold emitted, exec. rewrite (invoke_point_adding c d H).
  rewrite xy_point_closed. cbn [fst snd].
  destruct (destination c (pos d)); split; reflexivity.
Qed.

Lemma count_curve_cmds p (d : Drawing) (q : Position) :
  (forall f u v, p (apply_curve f u v) = false) ->
  count p (curve_cmds d q) = 0.
Proof.
  intros H. unfold curve_cmds, count.
  destruct (drawCurve d); cbn; [rewrite H|]; reflexivity.
Qed.

Lemma curve_not_beginPath f (u v : num) : is_beginPath (apply_curve f u v) = false.
Proof. destruct f; reflexivity. Qed.

Lemma curve_not_lineTo f (u v : num) : is_lineTo (apply_curve f u v) = false.
Proof. destruct f; reflexivity. Qed.

(** A point-adding call made while a reset is pending and the position is
    drawn: one [beginPath], no line, and the new point is moved to when it
    is flushed. *)
Lemma point_on_pending_reset (c : Call) (d : Drawing) (a b : option num) :
  point_adding c = true ->
  pendingPathClose d = true -> posDrawn d = true ->
  emitted (invoke c) d = Ctx.beginPath :: curve_cmds d (destination c (pos d))
  /\ count is_beginPath (emitted (invoke c) d) = 1
  /\ count is_lineTo (emitted (invoke c) d) = 0
  /\ emitted (_advancePath a b) (exec (invoke c) d)
     = [move_to (destination c (pos d))].
Proof.
  intros Hc Hp Hd.
  destruct (emitted_point_adding c d Hc) as [E X]. rewrite E, X. clear E X.
  destruct d as [p dr st pt ts pc dc]. cbn in Hp, Hd. subst.
  destruct a, b, dc as [[]|]; repeat split; reflexivity.
Qed.

(** C5.  After [stroke] or [fill] (whose last command is the paint
    itself), the next point-adding call sends exactly one [beginPath],
    first, and no line; the point it names is then sent as a [moveTo] by
    the next flush, not as a line from the position held before the
    paint. *)
Theorem point_after_paint_starts_new_path
    (d : Drawing) (paint_call next : Call) (a b : option num) :
  is_paint paint_call = true -> point_adding next = true ->
  let d1 := exec (invoke paint_call) d in
  let B := destination next (pos d) in
  (exists before, emitted (invoke paint_call) d = before ++ [Ctx.stroke]
               \/ exists rule,
                  emitted (invoke paint_call) d = before ++ [Ctx.fill rule])
  /\ emitted (invoke next) d1 = Ctx.beginPath :: curve_cmds d B
  /\ count is_beginPath (emitted (invoke next) d1) = 1
  /\ count is_lineTo (emitted (invoke next) d1) = 0
  /\ emitted (_advancePath a b) (exec (invoke next) d1) = [move_to B].
Proof.
  intros Hp Hn d1 B.
  assert (S : pendingPathClose d1 = true /\ posDrawn d1 = true
              /\ pos d1 = pos d /\ drawCurve d1 = drawCurve d).
  { unfold d1, exec. destruct paint_call; try discriminate; cbn [invoke].
    - rewrite stroke_closed. repeat split.
    - rewrite fill_closed. repeat split. }
  destruct S as (S1 & S2 & S3 & S4).
  split.
  - destruct paint_call; try discriminate; cbn [invoke]; unfold emitted.
    + rewrite stroke_closed. cbn [snd]. eexists. left.
      rewrite !app_assoc. reflexivity.
    + rewrite fill_closed. cbn [snd]. eexists. right. eexists.
      rewrite !app_assoc. reflexivity.
  - pose proof (point_on_pending_reset next d1 a b Hn S1 S2) as H.
    unfold curve_cmds in *. rewrite S3, S4 in H. exact H.
Qed.

(** C7.  After [split ()], a point-adding call sends no [lineTo] (nor any
    [moveTo] yet) and the point it names is sent as a [moveTo] by the next
    flush.  After [join ()], a point-adding call first sends the position
    held before the join (as a [lineTo], or as a [moveTo] when no subpath
    was open) and the next flush always sends a [lineTo] to the new
    point, whether or not it equals that position: the line starts at the
    position held before the join. *)
Theorem split_disconnects_join_connects
    (d : Drawing) (next : Call) (a b : option num) :
  point_adding next = true ->
  let P := pos d in
  let B := destination next P in
  (emitted (invoke next) (exec split d) = curve_cmds d B
   /\ count is_lineTo (emitted (invoke next) (exec split d)) = 0
   /\ emitted (_advancePath a b) (exec (invoke next) (exec split d))
      = [move_to B])
  /\
  ((emitted (invoke next) (exec join d) = [move_to P]
    \/ emitted (invoke next) (exec join d) = [line_to P])
   /\ emitted (_advancePath a b) (exec (invoke next) (exec join d))
      = [line_to B]).
Proof.
  intros Hn P B. subst P B.
  destruct (emitted_point_adding next (exec split d) Hn) as [E1 X1].
  destruct (emitted_point_adding next (exec join d) Hn) as [E2 X2].
  rewrite E1, X1, E2, X2. clear E1 X1 E2 X2.
  unfold exec. rewrite split_closed, join_closed. cbn [fst snd pos].
  destruct d as [p dr st pt ts pc dc].
  destruct a, b, pc, dr, st, dc as [[]|];
    (split;
     [ repeat split; reflexivity
     | split; [first [left; reflexivity | right; reflexivity] | reflexivity] ]).
Qed.

Lemma xyf_keeps_curve (g : generator) (d : Drawing) :
  drawCurve (exec (_xyf g) d) = drawCurve d
  /\ count is_curve (emitted (_xyf g) d) = 0.
Proof.
  revert d; induction g as [|[u v] g IH]; intros d.
  - split; reflexivity.
  - cbn [_xyf]. rewrite exec_seq, emitted_seq, count_app.
    destruct (IH (exec (_advancePath u v) d)) as (I1 & I2).
    rewrite I1, I2. unfold exec, emitted. rewrite advancePath_closed.
    cbn [fst snd drawCurve]. unfold flush_cmds.
    destruct (posDrawn d), (posStart d); split; reflexivity.
Qed.

(** C6 (as the code has it).  [arcTo] and [curve] store the closure.  The
    next point-adding call that names a point ([xy (x, y)], [x], [y],
    [dxy], [dx], [dy]) sends exactly one curve command, ending at that
    point, and clears the closure, so a second such call sends none.
    [join] and, on an open subpath, [close] call [xy] themselves and so
    consume it too.  [xy] given a generator, [split], [rect], [square],
    [arc], [circle], [ellipse] and [close] without an open subpath leave
    [drawCurve] as it was. *)
Theorem drawCurve_lifetime (d : Drawing) :
  (forall cx cy r, drawCurve (exec (arcTo cx cy r) d) = Some (arcTo_fn cx cy r))
  /\ (forall x1 y1, drawCurve (exec (curve x1 y1 None None) d)
                    = Some (quadratic_fn x1 y1))
  /\ (forall x1 y1 x2 y2, drawCurve (exec (curve x1 y1 (Some x2) (Some y2)) d)
                          = Some (bezier_fn x1 y1 x2 y2))
  /\ (forall c,
        point_adding c = true ->
        drawCurve (exec (invoke c) d) = None
        /\ filter is_curve (emitted (invoke c) d)
           = curve_cmds d (destination c (pos d))
        /\ forall c',
             point_adding c' = true ->
             count is_curve (emitted (invoke c') (exec (invoke c) d)) = 0)
  /\ (forall g b,
        drawCurve (exec (xy (xfunc g) b) d) = drawCurve d
        /\ count is_curve (emitted (xy (xfunc g) b) d) = 0)
  /\ drawCurve (exec join d) = None
  /\ drawCurve (exec close d) =
       match flushed_start (reset d) with
       | Some _ => None
       | None => drawCurve d
       end
  /\ drawCurve (exec split d) = drawCurve d
  /\ (forall w h c, drawCurve (exec (rect w h c) d) = drawCurve d)
  /\ (forall size c, drawCurve (exec (square size c) d) = drawCurve d)
  /\ (forall r sa ea acw, drawCurve (exec (arc r sa ea acw) d) = drawCurve d)
  /\ (forall r, drawCurve (exec (circle r) d) = drawCurve d)
  /\ (forall rx ry rot sa ea acw,
        drawCurve (exec (ellipse rx ry rot sa ea acw) d) = drawCurve d).
Proof.
  split; [reflexivity|]. split; [reflexivity|]. split; [reflexivity|].
  split.
  { intros c Hc. destruct (emitted_point_adding c d Hc) as [E X].
    split; [|split].
    - rewrite X. reflexivity.
    - rewrite E. clear E X. destruct d as [p dr st pt ts pc dc].
      destruct pc, dr, st, dc as [[]|]; reflexivity.
    - intros c' Hc'.
      destruct (emitted_point_adding c' (exec (invoke c) d) Hc') as [E' _].
      rewrite E', X. clear E E' X. destruct d as [p dr st pt ts pc dc].
      destruct pc, dr, st; reflexivity. }
  split.
  { intros g b. unfold xy. rewrite exec_seq, emitted_seq, count_app.
    destruct (xyf_keeps_curve g (exec _checkPathClose d)) as [I1 I2].
    rewrite I1, I2. unfold exec, emitted. rewrite checkPathClose_closed.
    destruct d as [p dr st pt ts pc dc]. destruct pc; split; reflexivity. }
  split. { unfold exec. rewrite join_closed. reflexivity. }
  split. { unfold exec. rewrite close_closed. reflexivity. }
  split. { unfold exec. rewrite split_closed. reflexivity. }
  destruct d as [[u v] dr st pt ts pc dc].
  repeat split; intros; destruct pc; evaluate; reflexivity.
Qed.

(** C10 (as the code has it).  After [xy (x, y)] has consumed a deferred
    curve, the end point is still recorded as undrawn, so whatever flushes
    next sends one more command to that same point: a [lineTo] when a
    subpath is open, a [moveTo] when none is.  A later [xy], [split] and
    [join] send exactly that command; [close] sends it first; [stroke]
    and [fill] send it right after their style assignments. *)
Theorem consumed_curve_endpoint_is_flushed_again
    (d : Drawing) (f : CurveFn) (ex ey : num) :
  drawCurve d = Some f ->
  let d1 := exec (xy_point ex ey) d in
  let again :=
    match posStart d1 with
    | None => Ctx.moveTo ex ey
    | Some _ => Ctx.lineTo ex ey
    end in
  emitted (xy_point ex ey) d =
    reset_cmds d ++ flush_cmds (reset d) ++ [apply_curve f ex ey]
  /\ pos d1 = mkPos ex ey /\ posDrawn d1 = false /\ drawCurve d1 = None
  /\ (forall a b, emitted (xy (xnum a) b) d1 = [again])
  /\ (exists rest, emitted close d1 = again :: rest)
  /\ emitted split d1 = [again]
  /\ emitted join d1 = [again]
  /\ (forall size color,
        emitted (stroke size color) d1 =
        stroke_style size color ++ again ::
        flat_map (render_text Ctx.strokeText) (pendingText d1) ++ [Ctx.stroke])
  /\ (forall color rule,
        emitted (fill color rule) d1 =
        fill_style color ++ again ::
        flat_map (render_text Ctx.fillText) (pendingText d1) ++ [Ctx.fill rule]).
Proof.
  intros Hf d1 again. unfold again, d1, exec, emitted.
  rewrite !xy_point_closed. cbn [fst snd].
  rewrite split_closed, join_closed, close_closed. cbn [fst snd].
  unfold curve_cmds at 1. rewrite Hf. cbn [px py].
  set (st := flushed_start (reset d)).
  set (pt := pendingText (reset d)). clearbody st pt.
  repeat match goal with |- _ /\ _ => split end; try reflexivity.
  - intros a b. cbv. destruct st, a, b; reflexivity.
  - unfold reset, reset_cmds, flush_cmds, flushed_start, curve_cmds,
      move_to, line_to; cbn. destruct st; eexists; reflexivity.
  - unfold reset, reset_cmds, flush_cmds, flushed_start, curve_cmds,
      move_to, line_to; cbn. destruct st; reflexivity.
  - unfold reset, reset_cmds, flush_cmds, flushed_start, curve_cmds,
      move_to, line_to; cbn. destruct st; reflexivity.
  - intros size color. rewrite stroke_closed. cbn [snd].
    unfold flush_cmds, move_to, line_to; cbn. destruct st; reflexivity.
  - intros color rule. rewrite fill_closed. cbn [snd].
    unfold flush_cmds, move_to, line_to; cbn. destruct st; reflexivity.
Qed.

(** ** The text queue *)

Lemma emitted_chain_app cs1 cs2 (d : Drawing) :
  emitted (chain (cs1 ++ cs2)) d =
  emitted (chain cs1) d ++ emitted (chain cs2) (exec (chain cs1) d).
Proof.
  revert d; induction cs1 as [|c cs1 IH]; intros d; [reflexivity|].
  cbn [chain app]. rewrite !emitted_seq, exec_seq, IH.
  rewrite app_assoc. reflexivity.
Qed.

Lemma count_flush_beginPath (d : Drawing) : count is_beginPath (flush_cmds d) = 0.
Proof.
  unfold flush_cmds. destruct (posDrawn d), (posStart d); reflexivity.
Qed.

Lemma count_texts_beginPath draw (l : list TextEntry) :
  (forall str u v, is_beginPath (draw str u v) = false) ->
  count is_beginPath (flat_map (render_text draw) l) = 0.
Proof.
  intros H. induction l as [|[[str p] style] l IH]; [reflexivity|].
  cbn [flat_map render_text]. rewrite count_app, IH.
  unfold count. cbn. rewrite H. reflexivity.
Qed.

Lemma xyf_frame (g : generator) (d : Drawing) :
  pendingText (exec (_xyf g) d) = pendingText d
  /\ pendingPathClose (exec (_xyf g) d) = pendingPathClose d
  /\ count is_beginPath (emitted (_xyf g) d) = 0.
Proof.
  revert d; induction g as [|[u v] g IH]; intros d.
  - repeat split.
  - cbn [_xyf]. rewrite exec_seq, emitted_seq, count_app.
    destruct (IH (exec (_advancePath u v) d)) as (I1 & I2 & I3).
    rewrite I1, I2, I3. unfold exec, emitted.
    rewrite advancePath_closed. cbn [fst snd pendingText pendingPathClose].
    rewrite count_flush_beginPath. repeat split.
Qed.

(** Effect of any public call on the text queue and on the reset flag,
    and the number of [beginPath] commands it sends. *)
Lemma invoke_pending (c : Call) (d : Drawing) :
  pendingText (exec (invoke c) d) =
    (if pendingPathClose d && checks_path c then [] else pendingText d)
    ++ queued c d
  /\ pendingPathClose (exec (invoke c) d) =
    (is_paint c || (pendingPathClose d && negb (checks_path c)))
  /\ count is_beginPath (emitted (invoke c) d) =
    (if pendingPathClose d && checks_path c then 1 else 0).
Proof.
  destruct c; cbn [invoke is_paint checks_path queued].
  1: { (* xy *)
    destruct x0 as [g|o].
    - unfold xy. rewrite exec_seq, emitted_seq, count_app.
      destruct (xyf_frame g (exec _checkPathClose d)) as (I1 & I2 & I3).
      rewrite I1, I2, I3. unfold exec, emitted. rewrite checkPathClose_closed.
      destruct d as [p dr st pt ts pc dc].
      destruct pc; cbn; rewrite ?app_nil_r; repeat split.
    - destruct d as [[u v] dr st pt ts pc dc].
      destruct o, y0, pc, dr, st, dc as [[]|];
        rewrite ?app_nil_r; repeat split; reflexivity. }
  16: { (* stroke *)
    unfold exec, emitted. rewrite stroke_closed. cbn [fst snd].
    rewrite !count_app, count_flush_beginPath.
    rewrite (count_texts_beginPath Ctx.strokeText); [|reflexivity].
    rewrite andb_false_r, app_nil_r.
    destruct size as [[n|q]|], color as [c|]; cbn;
      try destruct (paint_truthy c); try destruct (paint_truthy q);
      repeat split; reflexivity. }
  16: { (* fill *)
    unfold exec, emitted. rewrite fill_closed. cbn [fst snd].
    rewrite !count_app, count_flush_beginPath.
    rewrite (count_texts_beginPath Ctx.fillText); [|reflexivity].
    rewrite andb_false_r, app_nil_r.
    destruct color as [c|]; cbn; try destruct (paint_truthy c);
      repeat split; reflexivity. }
  all: destruct d as [[pu pv] dr st pt ts pc dc]; destruct pc;
    try match goal with
        | |- context [image _ ?w ?h] => destruct w, h; unfold image; cbv iota
        end;
    try (unfold ellipse; cbv zeta);
    repeat match goal with
      | |- context [num_seq ?a ?b] => destruct (num_seq a b)
      | |- context [num_truthy ?a] => destruct (num_truthy a)
      end;
    first [ settle | destruct dr, st, dc as [[]|]; settle ].
Qed.

Lemma chain_keeps_text cs (d : Drawing) :
  no_paint cs = true -> pendingPathClose d = false ->
  pendingPathClose (exec (chain cs) d) = false
  /\ exists l, pendingText (exec (chain cs) d) = pendingText d ++ l.
Proof.
  revert d; induction cs as [|c cs IH]; intros d Hn Hp.
  - split; [exact Hp|]. exists []. rewrite app_nil_r. reflexivity.
  - cbn [no_paint forallb] in Hn. apply andb_true_iff in Hn as [Hc Hn].
    apply negb_true_iff in Hc.
    cbn [chain]. rewrite exec_seq.
    destruct (invoke_pending c d) as (T & P & _).
    rewrite Hp, Hc in P. cbn in P. rewrite Hp in T. cbn in T.
    destruct (IH (exec (invoke c) d) Hn P) as [P' [l T']].
    split; [exact P'|]. exists (queued c d ++ l).
    rewrite T', T, app_assoc. reflexivity.
Qed.

(** C9.  A call empties [pendingText] exactly when it performs the lazy
    path reset, that is when [pendingPathClose] is set and the method runs
    [_checkPathClose]: it then sends one [beginPath].  Any other call
    keeps every queued entry and sends no [beginPath]; only [text]
    appends.  In particular [stroke] and [fill] leave the queue as it is,
    so a second paint right after a first one renders every queued entry
    again, once per paint. *)
Theorem pendingText_cleared_only_by_reset (d : Drawing) :
  (forall c,
     pendingText (exec (invoke c) d) =
       (if pendingPathClose d && checks_path c then [] else pendingText d)
       ++ queued c d
     /\ count is_beginPath (emitted (invoke c) d) =
       (if pendingPathClose d && checks_path c then 1 else 0))
  /\ (forall size color, pendingText (exec (stroke size color) d) = pendingText d)
  /\ (forall color rule, pendingText (exec (fill color rule) d) = pendingText d)
  /\ (forall size color,
        emitted (stroke size color) d =
        stroke_style size color ++ flush_cmds d ++
        stroke_texts (pendingText d) ++ [Ctx.stroke])
  /\ (forall color rule,
        emitted (fill color rule) d =
        fill_style color ++ flush_cmds d ++
        fill_texts (pendingText d) ++ [Ctx.fill rule])
  /\ (forall size color size' color',
        emitted (stroke size' color') (exec (stroke size color) d) =
        stroke_style size' color' ++
        stroke_texts (pendingText d) ++ [Ctx.stroke])
  /\ (forall color rule color' rule',
        emitted (fill color' rule') (exec (fill color rule) d) =
        fill_style color' ++ fill_texts (pendingText d) ++ [Ctx.fill rule'])
  /\ (forall size color color' rule',
        emitted (fill color' rule') (exec (stroke size color) d) =
        fill_style color' ++ fill_texts (pendingText d) ++ [Ctx.fill rule'])
  /\ (forall color rule size' color',
        emitted (stroke size' color') (exec (fill color rule) d) =
        stroke_style size' color' ++
        stroke_texts (pendingText d) ++ [Ctx.stroke]).
Proof.
  unfold stroke_texts, fill_texts, exec, emitted.
  repeat match goal with |- _ /\ _ => split end; intros;
    rewrite ?stroke_closed, ?fill_closed; cbn [fst snd];
    rewrite ?stroke_closed, ?fill_closed; cbn [fst snd];
    try reflexivity.
  destruct (invoke_pending c d) as (T & _ & B). split; assumption.
Qed.

(** C8.  [text (A)] ... [text (B)] ... [fill ()], with any calls other
    than paints in between: the fill renders both strings, A before B,
    each by assigning the style object copied at its own [text] call and
    then [fillText] at the position copied at that call, whatever the
    position and [textStyle] have become since.  The same holds for
    [stroke] with [strokeText]. *)
Theorem text_snapshots
    (d : Drawing) (strA strB : string) (alA blA alB blB : option string)
    (cs1 cs2 : list Call) :
  no_paint cs1 = true -> no_paint cs2 = true ->
  let dB := exec (chain cs1) (exec (text strA alA blA) d) in
  let dF := exec (chain cs2) (exec (text strB alB blB) dB) in
  let entryA := (strA, pos d, aligned (textStyle d) alA blA) in
  let entryB := (strB, pos dB, aligned (textStyle dB) alB blB) in
  exists l0 l1 l2,
    pendingText dF = l0 ++ [entryA] ++ l1 ++ [entryB] ++ l2
    /\ (forall color rule,
          emitted (fill color rule) dF =
          fill_style color ++ flush_cmds dF ++
          fill_texts l0 ++
          [Ctx.assign_style (aligned (textStyle d) alA blA);
           Ctx.fillText strA (px (pos d)) (py (pos d))] ++
          fill_texts l1 ++
          [Ctx.assign_style (aligned (textStyle dB) alB blB);
           Ctx.fillText strB (px (pos dB)) (py (pos dB))] ++
          fill_texts l2 ++ [Ctx.fill rule])
    /\ (forall size color,
          emitted (stroke size color) dF =
          stroke_style size color ++ flush_cmds dF ++
          stroke_texts l0 ++
          [Ctx.assign_style (aligned (textStyle d) alA blA);
           Ctx.strokeText strA (px (pos d)) (py (pos d))] ++
          stroke_texts l1 ++
          [Ctx.assign_style (aligned (textStyle dB) alB blB);
           Ctx.strokeText strB (px (pos dB)) (py (pos dB))] ++
          stroke_texts l2 ++ [Ctx.stroke]).
Proof.
  intros H1 H2 dB dF entryA entryB.
  destruct (invoke_pending (call_text strA alA blA) d) as (TA & PA & _).
  cbn [invoke is_paint checks_path queued] in TA, PA.
  cbn [negb] in PA. rewrite andb_false_r in PA. cbn [orb] in PA.
  destruct (chain_keeps_text cs1 (exec (text strA alA blA) d) H1 PA)
    as [PB0 [l1 T1]]. fold dB in PB0, T1.
  destruct (invoke_pending (call_text strB alB blB) dB) as (TB & PB & _).
  cbn [invoke is_paint checks_path queued] in TB, PB.
  cbn [negb] in PB. rewrite andb_false_r in PB. cbn [orb] in PB.
  rewrite PB0 in TB. cbn [andb] in TB.
  destruct (chain_keeps_text cs2 (exec (text strB alB blB) dB) H2 PB)
    as [_ [l2 T2]]. fold dF in T2.
  exists (if pendingPathClose d && true then [] else pendingText d), l1, l2.
  assert (T : pendingText dF =
              (if pendingPathClose d && true then [] else pendingText d)
              ++ [entryA] ++ l1 ++ [entryB] ++ l2).
  { rewrite T2, TB, T1, TA. unfold entryA, entryB.
    rewrite <- !app_assoc. reflexivity. }
  split; [exact T|]. split; intros.
  - unfold emitted. rewrite fill_closed. cbn [snd]. rewrite T.
    unfold fill_texts, entryA, entryB.
    rewrite !flat_map_app. cbn [flat_map render_text].
    repeat (rewrite <- app_assoc || cbn [app]). reflexivity.
  - unfold emitted. rewrite stroke_closed. cbn [snd]. rewrite T.
    unfold stroke_texts, entryA, entryB.
    rewrite !flat_map_app. cbn [flat_map render_text].
    repeat (rewrite <- app_assoc || cbn [app]). reflexivity.
Qed.

(** ** Closing a polyline *)

Lemma lines_then_close (cs : list Call) (d : Drawing) :
  forallb point_adding cs = true ->
  posDrawn d = false -> pendingPathClose d = false -> drawCurve d = None ->
  emitted (chain (cs ++ [call_close])) d =
  flush_cmds d ++ map line_to (destinations cs (pos d)) ++
  [line_to match posStart d with Some s => s | None => pos d end;
   Ctx.closePath].
Proof.
  revert d; induction cs as [|c cs IH]; intros d Hcs Hd Hp Hc.
  - cbn [app chain destinations map]. rewrite emitted_seq.
    cbn [invoke]. unfold emitted, exec. rewrite close_closed.
    destruct d as [p dr st pt ts pc dc]. cbn in Hd, Hp, Hc. subst.
    destruct st; reflexivity.
  - cbn [forallb] in Hcs. apply andb_true_iff in Hcs as [H1 H2].
    cbn [app chain destinations map]. rewrite emitted_seq.
    destruct (emitted_point_adding c d H1) as [E X]. rewrite E.
    rewrite IH; [|exact H2|rewrite X; reflexivity..].
    rewrite X. clear IH E X.
    destruct d as [p dr st pt ts pc dc]. cbn in Hd, Hp, Hc. subst.
    destruct st; reflexivity.
Qed.

(** C4 (as the code has it).  On a drawing whose position is drawn, with
    no deferred curve and with no subpath open (or a reset pending, which
    closes it), a non-empty sequence of point-adding calls followed by
    [close ()] sends exactly: [beginPath] if the reset was pending, then
    one [moveTo] to the first point, a [lineTo] to each further point in
    order, a [lineTo] back to the first point, and [closePath].  The line
    back is sent in every case; [close] compares no coordinates, so it is
    also sent when the last point equals the first.  With no point-adding
    call at all, [close ()] sends no move and no line. *)
Theorem points_then_close (d : Drawing) (c : Call) (cs : list Call) :
  posDrawn d = true -> drawCurve d = None ->
  posStart d = None \/ pendingPathClose d = true ->
  point_adding c = true -> forallb point_adding cs = true ->
  let first := destination c (pos d) in
  emitted (chain (c :: cs ++ [call_close])) d =
    reset_cmds d ++
    move_to first :: map line_to (destinations cs first)
    ++ [line_to first; Ctx.closePath]
  /\ emitted (chain [call_close]) d = reset_cmds d ++ [Ctx.closePath].
Proof.
  intros Hd Hc Hs H1 H2 first.
  assert (R : posStart (reset d) = None).
  { unfold reset. destruct Hs as [Hs|Hs]; rewrite ?Hs;
      destruct (pendingPathClose d); cbn; auto. }
  split.
  - cbn [chain]. rewrite emitted_seq.
    destruct (emitted_point_adding c d H1) as [E X]. rewrite E.
    rewrite lines_then_close; [|exact H2|rewrite X; reflexivity..].
    rewrite X. fold first. clear E X.
    unfold flush_cmds, flushed_start, curve_cmds.
    replace (posDrawn (reset d)) with true
      by (unfold reset; destruct (pendingPathClose d); cbn; auto).
    rewrite Hc, R. cbn. rewrite app_nil_r. reflexivity.
  - cbn [chain invoke]. rewrite emitted_seq. unfold emitted at 1 2, exec.
    rewrite close_closed. cbn [fst snd].
    unfold flush_cmds, flushed_start.
    replace (posDrawn (reset d)) with true
      by (unfold reset; destruct (pendingPathClose d); cbn; auto).
    rewrite R. cbn. rewrite app_nil_r. reflexivity.
Qed.

(** * Further properties of the methods *)

(** ** Subpaths: [join], [close], [circle] and the anchored shapes *)

(** X1.  [join ()] behaves exactly as [xy (pos.x, pos.y)]: same commands,
    same resulting fields, from every state. *)
Theorem join_is_xy_at_pos (d : Drawing) :
  join d = xy_point (px (pos d)) (py (pos d)) d.
Proof.
  rewrite join_closed, xy_point_closed. destruct (pos d). reflexivity.
Qed.

(** X2.  [close ()] is idempotent: a second [close ()] right after the
    first sends only [closePath] (no move, no line) and changes no field. *)
Theorem close_twice (d : Drawing) :
  emitted close (exec close d) = [Ctx.closePath]
  /\ exec close (exec close d) = exec close d.
Proof.
  unfold emitted, exec. rewrite (close_closed d). cbn [fst snd].
  rewrite close_closed. split; reflexivity.
Qed.

(** X3.  After [close ()] or [circle (r)] no subpath is open and the
    position counts as drawn: an immediate [close ()] sends only
    [closePath], and a following point-adding call sends no line; the
    point it names is sent as a [moveTo] by the next flush. *)
Theorem close_and_circle_end_the_subpath
    (c next : Call) (d : Drawing) (a b : option num) :
  restarts_subpath c = true -> point_adding next = true ->
  let d1 := exec (invoke c) d in
  posStart d1 = None /\ posDrawn d1 = true /\ pendingPathClose d1 = false
  /\ emitted close d1 = [Ctx.closePath]
  /\ count is_lineTo (emitted (invoke next) d1) = 0
  /\ emitted (_advancePath a b) (exec (invoke next) d1)
     = [move_to (destination next (pos d1))].
Proof.
  intros Hc Hn d1.
  assert (S : posStart d1 = None /\ posDrawn d1 = true
              /\ pendingPathClose d1 = false).
  { unfold d1, exec. destruct c; try discriminate; cbn [invoke].
    - rewrite close_closed. repeat split.
    - destruct d as [p dr st pt ts pc dc]. destruct pc; repeat split. }
  destruct S as (S1 & S2 & S3). repeat (split; [assumption|]).
  destruct (emitted_point_adding next d1 Hn) as [E X]. rewrite E, X.
  clearbody d1. clear E X.
  destruct d1 as [p dr st pt ts pc dc]. cbn in S1, S2, S3. subst.
  destruct a, b, dc as [[]|]; repeat split; reflexivity.
Qed.

(** X4.  [rect], [square], [arc], [ellipse], [image] and [text] use the
    position only as an anchor: they keep [pos], [posStart] (up to the
    pending reset) and [drawCurve], send no [lineTo], and mark the
    position drawn without sending it, so the next flush sends nothing.
    A point recorded just before such a call never reaches the context. *)
Theorem anchored_calls_consume_the_position
    (c : Call) (d : Drawing) (a b : option num) :
  anchored c = true ->
  let d1 := exec (invoke c) d in
  pos d1 = pos d /\ posDrawn d1 = true
  /\ posStart d1 = posStart (reset d)
  /\ drawCurve d1 = drawCurve d
  /\ count is_lineTo (emitted (invoke c) d) = 0
  /\ emitted (_advancePath a b) d1 = [].
Proof.
  intros Hc d1. unfold d1. clear d1.
  destruct d as [[u v] dr st pt ts pc dc].
  destruct c; try discriminate; cbn [invoke];
    try match goal with
        | |- context [image _ ?w ?h] => destruct w, h; unfold image; cbv iota
        end;
    try (unfold ellipse; cbv zeta);
    repeat match goal with
      | |- context [num_seq ?x1 ?x2] => destruct (num_seq x1 x2)
      | |- context [num_truthy ?x1] => destruct (num_truthy x1)
      end;
    destruct pc, a, b; repeat split; reflexivity.
Qed.

(** X5.  [xy] with a coordinate missing records no point: it runs the
    pending reset, flushes the recorded position, and keeps [pos] with
    [posDrawn = true].  A deferred curve is nevertheless consumed: it is
    sent with the current position as its end point, and cleared. *)
Theorem xy_missing_coordinate (d : Drawing) :
  let flushed :=
    mkDrawing (pos d) true (flushed_start (reset d)) (pendingText (reset d))
              (textStyle d) false None in
  let sent := reset_cmds d ++ flush_cmds (reset d) ++ curve_cmds d (pos d) in
  (forall a, exec (xy (xnum a) None) d = flushed
             /\ emitted (xy (xnum a) None) d = sent)
  /\ (forall b, exec (xy (xnum None) b) d = flushed
                /\ emitted (xy (xnum None) b) d = sent).
Proof.
  destruct d as [[u v] dr st pt ts pc dc].
  split; intros o; destruct o, pc, dr, st, dc; split; reflexivity.
Qed.

(** ** Generators and deferred curves *)

Lemma advance_is_xy (u v : num) (d : Drawing) :
  pendingPathClose d = false -> drawCurve d = None ->
  _advancePath (Some u) (Some v) d = xy_point u v d.
Proof.
  destruct d as [p dr st pt ts pc dc]. cbn. intros -> ->.
  destruct dr, st; reflexivity.
Qed.

Lemma xyf_as_points (ps : list Position) (d : Drawing) :
  pendingPathClose d = false -> drawCurve d = None ->
  _xyf (pairs_of ps) d = chain (points_of ps) d.
Proof.
  revert d; induction ps as [|p ps IH]; intros d Hp Hc; [reflexivity|].
  change (pairs_of (p :: ps)) with ((Some (px p), Some (py p)) :: pairs_of ps).
  change (points_of (p :: ps))
    with (call_xy (xnum (Some (px p))) (Some (py p)) :: points_of ps).
  cbn [_xyf chain invoke]. unfold bind.
  rewrite (advance_is_xy (px p) (py p) d Hp Hc).
  change (xy (xnum (Some (px p))) (Some (py p))) with (xy_point (px p) (py p)).
  rewrite xy_point_closed. cbn [fst snd].
  rewrite IH by reflexivity. reflexivity.
Qed.

(** X6.  With no deferred curve pending, [xy] given a generator that
    yields the points [p1, ..., pn] (n > 0) is the same as the chain
    [xy (p1)...xy (pn)]: same commands and same resulting fields. *)
Theorem generator_is_chain_of_points
    (p : Position) (ps : list Position) (b : option num) (d : Drawing) :
  drawCurve d = None ->
  exec (xy (xfunc (pairs_of (p :: ps))) b) d
    = exec (chain (points_of (p :: ps))) d
  /\ emitted (xy (xfunc (pairs_of (p :: ps))) b) d
    = emitted (chain (points_of (p :: ps))) d.
Proof.
  intros Hc.
  assert (R : _xyf (pairs_of (p :: ps)) (reset d)
              = chain (points_of (p :: ps)) (reset d)).
  { apply xyf_as_points.
    - unfold reset. destruct (pendingPathClose d) eqn:E; [reflexivity|exact E].
    - unfold reset. destruct (pendingPathClose d); [exact Hc|exact Hc]. }
  unfold exec, emitted, xy, bind. rewrite checkPathClose_closed.
  cbn [fst snd]. rewrite R. clear R.
  change (points_of (p :: ps))
    with (call_xy (xnum (Some (px p))) (Some (py p)) :: points_of ps).
  cbn [chain invoke]. unfold bind.
  change (xy (xnum (Some (px p))) (Some (py p))) with (xy_point (px p) (py p)).
  rewrite !xy_point_closed. cbn [fst snd].
  destruct d as [q dr st pt ts pc dc]. cbn in Hc. subst dc.
  destruct pc; split; reflexivity.
Qed.

(** X7.  Deferred curves do not queue: [arcTo] and [curve] send nothing,
    and a second one replaces the first, so only the latest is drawn by
    the next point.  [curve] with only one coordinate of the second
    control point falls back to the quadratic curve. *)
Theorem later_curve_replaces_earlier (c1 c2 : Call) (d : Drawing) :
  sets_curve c1 = true -> sets_curve c2 = true ->
  invoke c2 (exec (invoke c1) d) = invoke c2 d
  /\ emitted (invoke c1) d = []
  /\ (forall u v,
        filter is_curve
          (emitted (xy_point u v) (exec (invoke c2) (exec (invoke c1) d)))
        = curve_cmds (exec (invoke c2) d) (mkPos u v))
  /\ (forall x1 y1 x2, curve x1 y1 (Some x2) None d = curve x1 y1 None None d)
  /\ (forall x1 y1 y2, curve x1 y1 None (Some y2) d = curve x1 y1 None None d).
Proof.
  intros H1 H2. destruct d as [p dr st pt ts pc dc].
  destruct c1; try discriminate; destruct c2; try discriminate;
    repeat split; try reflexivity; intros u v;
    repeat match goal with
      | o : option num |- _ => destruct o
      end;
    destruct pc, dr, st; reflexivity.
Qed.

(** ** Arguments that are missing or falsy *)

(** X8.  [image] draws at an explicit size only when both [width] and
    [height] are given and truthy; a zero (or NaN) or missing dimension
    falls back to [drawImage (src, x, y)]. *)
Theorem image_without_usable_size
    (src : string) (w h : num) (d : Drawing) :
  num_truthy w && num_truthy h = false ->
  image src (Some w) (Some h) d = image src None None d
  /\ image src (Some w) None d = image src None None d
  /\ image src None (Some h) d = image src None None d.
Proof.
  intros H. unfold image.
  destruct (num_truthy w), (num_truthy h); try discriminate;
    repeat split; reflexivity.
Qed.


(** X10.  [stroke] with a colour as first argument ignores its second
    argument, and an empty-string colour is ignored by [stroke] and
    [fill] alike (no style is assigned). *)
Theorem paint_arguments_ignored (d : Drawing) :
  (forall p color,
     stroke (Some (size_paint p)) color d = stroke (Some (size_paint p)) None d)
  /\ (forall color,
        stroke (Some (size_paint (paint_string ""))) color d = stroke None None d)
  /\ (forall n,
        stroke (Some (size_number n)) (Some (paint_string "")) d
        = stroke (Some (size_number n)) None d)
  /\ (forall rule, fill (Some (paint_string "")) rule d = fill None rule d).
Proof.
  repeat split; intros; rewrite ?stroke_closed, ?fill_closed; reflexivity.
Qed.

(** X11.  The style and transform methods ([dash], [lineStyle], [shadow],
    [save], [restore], [rotate], [scale], [translate]) change no field of
    the drawing and send no path command; in particular they do not run
    the pending path reset. *)
Theorem forwarders_leave_the_drawing_alone (c : Call) (d : Drawing) :
  forwards_only c = true ->
  exec (invoke c) d = d
  /\ forallb (fun k => negb (is_path_command k)) (emitted (invoke c) d) = true
  /\ emitted (invoke c) d <> [].
Proof.
  intros H. destruct c; try discriminate;
    repeat split; try reflexivity; discriminate.
Qed.

(** ** Invariants of whole chains *)

Lemma posDrawn_unchanged (c : Call) (d : Drawing) :
  checks_path c = false -> is_paint c = false ->
  posDrawn (exec (invoke c) d) = posDrawn d.
Proof. destruct c; try discriminate; reflexivity. Qed.

Lemma paint_sets_posDrawn (c : Call) (d : Drawing) :
  is_paint c = true -> posDrawn (exec (invoke c) d) = true.
Proof.
  destruct c; try discriminate; intros _; cbn [invoke]; unfold exec;
    rewrite ?stroke_closed, ?fill_closed; reflexivity.
Qed.

Lemma invoke_keeps_flushed (c : Call) (d : Drawing) :
  (pendingPathClose d = true -> posDrawn d = true) ->
  pendingPathClose (exec (invoke c) d) = true ->
  posDrawn (exec (invoke c) d) = true.
Proof.
  intros K H. destruct (invoke_pending c d) as (_ & P & _). rewrite P in H.
  destruct (is_paint c) eqn:Ep.
  - apply paint_sets_posDrawn. exact Ep.
  - cbn [orb] in H. apply andb_true_iff in H as [H1 H2].
    apply negb_true_iff in H2.
    rewrite posDrawn_unchanged by assumption. apply K. exact H1.
Qed.

(** X12.  Whenever a path reset is pending, the recorded position has
    already been drawn: starting from a state where this holds (a new
    [Drawing] in particular), it holds after any chain of calls.  So the
    [beginPath] of the lazy reset never discards a point that was
    recorded but not yet sent. *)
Theorem pending_reset_has_no_point_waiting (cs : list Call) (d : Drawing) :
  (pendingPathClose d = true -> posDrawn d = true) ->
  pendingPathClose (exec (chain cs) d) = true ->
  posDrawn (exec (chain cs) d) = true
  /\ flush_cmds (exec (chain cs) d) = [].
Proof.
  revert d; induction cs as [|c cs IH]; intros d K H.
  - cbn in *. specialize (K H). unfold flush_cmds. rewrite K. split; reflexivity.
  - cbn [chain] in *. rewrite exec_seq in *.
    apply IH; [|exact H]. apply invoke_keeps_flushed. exact K.
Qed.

Lemma track_app m (l1 l2 : list (Ctx.command num)) :
  track_start m (l1 ++ l2) =
  match track_start m l1 with
  | Some m' => track_start m' l2
  | None => None
  end.
Proof.
  revert m; induction l1 as [|k l1 IH]; intros m; [reflexivity|].
  destruct k; cbn [app track_start]; try apply IH.
  destruct m; [apply IH|reflexivity].
Qed.

Lemma track_texts draw m (l : list TextEntry) :
  (forall str u v k rest,
     track_start k (draw str u v :: rest) = track_start k rest) ->
  track_start m (flat_map (render_text draw) l) = Some m.
Proof.
  intros H. induction l as [|[[str p] style] l IH]; [reflexivity|].
  cbn [flat_map render_text app].
  change (track_start m (draw str (px p) (py p)
                           :: flat_map (render_text draw) l) = Some m).
  rewrite H. exact IH.
Qed.

Lemma track_flush (d : Drawing) m :
  start_recorded d m = true ->
  exists m',
    track_start m (flush_cmds d) = Some m'
    /\ match flushed_start d with Some _ => m' | None => true end = true.
Proof.
  destruct d as [p dr st pt ts pc dc].
  unfold start_recorded, flush_cmds, flushed_start. cbn.
  destruct dr, st, m; try discriminate; intros _; eexists; split; reflexivity.
Qed.

Lemma track_paint (d : Drawing) m (style texts : list (Ctx.command num)) last :
  track_start m style = Some m ->
  (forall k, track_start k texts = Some k) ->
  (forall k, track_start k [last] = Some k) ->
  start_recorded d m = true ->
  exists m',
    track_start m (style ++ flush_cmds d ++ texts ++ [last]) = Some m'
    /\ match flushed_start d with Some _ => m' | None => true end = true.
Proof.
  intros Hs Ht Hl K. destruct (track_flush d m K) as (m1 & T1 & K1).
  exists m1. split; [|exact K1].
  rewrite track_app, Hs. cbv beta iota.
  rewrite track_app, T1. cbv beta iota.
  rewrite track_app, Ht. cbv beta iota. apply Hl.
Qed.

Lemma xyf_tracks (g : generator) (d : Drawing) m :
  start_recorded d m = true ->
  exists m',
    track_start m (emitted (_xyf g) d) = Some m'
    /\ start_recorded (exec (_xyf g) d) m' = true.
Proof.
  revert d m; induction g as [|[u v] g IH]; intros d m K.
  - exists m. split; [reflexivity|exact K].
  - cbn [_xyf]. rewrite exec_seq, emitted_seq, track_app.
    destruct (track_flush d m K) as (m1 & T1 & K1).
    unfold emitted at 1. unfold exec at 1 3. rewrite advancePath_closed.
    cbn [fst snd]. rewrite T1. apply IH. exact K1.
Qed.

Lemma invoke_tracks (c : Call) (d : Drawing) m :
  start_recorded d m = true ->
  exists m',
    track_start m (emitted (invoke c) d) = Some m'
    /\ start_recorded (exec (invoke c) d) m' = true.
Proof.
  intros K. destruct c; cbn [invoke].
  1: { (* xy *)
    destruct x0 as [g|o].
    - unfold xy. rewrite exec_seq, emitted_seq, track_app.
      unfold emitted at 1. unfold exec at 1 3. rewrite checkPathClose_closed.
      cbn [fst snd].
      assert (R : exists m1, track_start m (reset_cmds d) = Some m1
                             /\ start_recorded (reset d) m1 = true).
      { destruct d as [p dr st pt ts pc dc]. destruct pc.
        - exists false. split; reflexivity.
        - exists m. split; [reflexivity|exact K]. }
      destruct R as (m1 & T1 & K1). rewrite T1. apply xyf_tracks. exact K1.
    - destruct d as [[u v] dr st pt ts pc dc].
      destruct o, y0, pc, dr, st, dc as [[]|], m; try discriminate K;
        eexists; split; reflexivity. }
  16: { (* stroke *)
    unfold exec, emitted. rewrite stroke_closed. cbn [fst snd].
    apply track_paint; try exact K; try reflexivity.
    - destruct size as [[n|q]|], color as [c|]; cbn;
        try destruct (paint_truthy c); try destruct (paint_truthy q);
        reflexivity.
    - intros k. apply track_texts. reflexivity. }
  16: { (* fill *)
    unfold exec, emitted. rewrite fill_closed. cbn [fst snd].
    apply track_paint; try exact K; try reflexivity.
    - destruct color as [c|]; cbn; try destruct (paint_truthy c);
        reflexivity.
    - intros k. apply track_texts. reflexivity. }
  all: destruct d as [[pu pv] dr st pt ts pc dc];
    try match goal with
        | |- context [image _ ?w ?h] => destruct w, h; unfold image; cbv iota
        end;
    try (unfold ellipse; cbv zeta);
    repeat match goal with
      | |- context [num_seq ?a ?b] => destruct (num_seq a b)
      | |- context [num_truthy ?a] => destruct (num_truthy a)
      end;
    destruct pc, dr, st, dc as [[]|], m; try discriminate K;
    eexists; split; reflexivity.
Qed.

Lemma chain_tracks (cs : list Call) (d : Drawing) m :
  start_recorded d m = true ->
  exists m',
    track_start m (emitted (chain cs) d) = Some m'
    /\ start_recorded (exec (chain cs) d) m' = true.
Proof.
  revert d m; induction cs as [|c cs IH]; intros d m K.
  - exists m. split; [reflexivity|exact K].
  - cbn [chain]. rewrite exec_seq, emitted_seq, track_app.
    destruct (invoke_tracks c d m K) as (m1 & T1 & K1).
    rewrite T1. apply IH. exact K1.
Qed.

(** X13.  Whatever is called on a new [Drawing], the context never
    receives a [lineTo] unless a [moveTo] came before it since the last
    [beginPath]: every line of the trace has a starting point. *)
Theorem lines_always_have_a_start (cs : list Call) :
  well_started (emitted (chain cs) constructor) = true.
Proof.
  unfold well_started.
  destruct (chain_tracks cs constructor false eq_refl) as (m' & T & _).
  rewrite T. reflexivity.
Qed.

Lemma invoke_beginPath_budget (c : Call) (d : Drawing) :
  count is_beginPath (emitted (invoke c) d)
  + (if pendingPathClose (exec (invoke c) d) then 1 else 0)
  <= (if is_paint c then 1 else 0) + (if pendingPathClose d then 1 else 0).
Proof.
  destruct (invoke_pending c d) as (_ & P & B). rewrite P, B.
  destruct (pendingPathClose d); destruct c; cbn; lia.
Qed.

Lemma paints_cons (c : Call) (cs : list Call) :
  paints (c :: cs) = (if is_paint c then 1 else 0) + paints cs.
Proof. unfold paints. cbn [filter]. destruct (is_paint c); reflexivity. Qed.

(** X14.  [beginPath] is only ever sent by the lazy reset, at most once
    per paint: over any chain from any state, the number of [beginPath]
    commands (plus one if a reset is still pending at the end) is at most
    the number of [stroke] and [fill] calls (plus one if a reset was
    pending at the start). *)
Theorem beginPath_at_most_once_per_paint (cs : list Call) (d : Drawing) :
  count is_beginPath (emitted (chain cs) d)
  + (if pendingPathClose (exec (chain cs) d) then 1 else 0)
  <= paints cs + (if pendingPathClose d then 1 else 0).
Proof.
  revert d; induction cs as [|c cs IH]; intros d.
  - cbn. lia.
  - cbn [chain]. rewrite exec_seq, emitted_seq, count_app, paints_cons.
    pose proof (invoke_beginPath_budget c d).
    pose proof (IH (exec (invoke c) d)). lia.
Qed.

Lemma count_flush p (d : Drawing) :
  (forall u v, p (Ctx.moveTo u v) = false) ->
  (forall u v, p (Ctx.lineTo u v) = false) ->
  count p (flush_cmds d) = 0.
Proof.
  intros Hm Hl. unfold flush_cmds, count, move_to, line_to.
  destruct (posDrawn d), (posStart d); cbn; rewrite ?Hm, ?Hl; reflexivity.
Qed.

Lemma count_texts p draw (l : list TextEntry) :
  (forall style, p (Ctx.assign_style style) = false) ->
  (forall str u v, p (draw str u v) = false) ->
  count p (flat_map (render_text draw) l) = 0.
Proof.
  intros Hs Hd. induction l as [|[[str q] style] l IH]; [reflexivity|].
  cbn [flat_map render_text]. rewrite count_app, IH.
  unfold count. cbn. rewrite Hs, Hd. reflexivity.
Qed.

Lemma xyf_count p (g : generator) (d : Drawing) :
  (forall u v, p (Ctx.moveTo u v) = false) ->
  (forall u v, p (Ctx.lineTo u v) = false) ->
  count p (emitted (_xyf g) d) = 0.
Proof.
  intros Hm Hl. revert d; induction g as [|[u v] g IH]; intros d;
    [reflexivity|].
  cbn [_xyf]. rewrite emitted_seq, count_app, IH.
  unfold emitted. rewrite advancePath_closed. cbn [snd].
  rewrite count_flush by assumption. reflexivity.
Qed.

Lemma invoke_paint_commands (c : Call) (d : Drawing) :
  count is_paint_command (emitted (invoke c) d) = if is_paint c then 1 else 0.
Proof.
  destruct c; cbn [invoke is_paint].
  1: { (* xy *)
    destruct x0 as [g|o].
    - unfold xy. rewrite emitted_seq, count_app, xyf_count by reflexivity.
      unfold emitted. rewrite checkPathClose_closed.
      destruct d as [p dr st pt ts pc dc]. destruct pc; reflexivity.
    - destruct d as [[u v] dr st pt ts pc dc].
      destruct o, y0, pc, dr, st, dc as [[]|]; reflexivity. }
  16: { (* stroke *)
    unfold emitted. rewrite stroke_closed. cbn [snd].
    rewrite !count_app, count_flush, count_texts by reflexivity.
    destruct size as [[n|q]|], color as [c|]; cbn;
      try destruct (paint_truthy c); try destruct (paint_truthy q);
      reflexivity. }
  16: { (* fill *)
    unfold emitted. rewrite fill_closed. cbn [snd].
    rewrite !count_app, count_flush, count_texts by reflexivity.
    destruct color as [c|]; cbn; try destruct (paint_truthy c);
      reflexivity. }
  all: destruct d as [[pu pv] dr st pt ts pc dc];
    try match goal with
        | |- context [image _ ?w ?h] => destruct w, h; unfold image; cbv iota
        end;
    try (unfold ellipse; cbv zeta);
    repeat match goal with
      | |- context [num_seq ?a ?b] => destruct (num_seq a b)
      | |- context [num_truthy ?a] => destruct (num_truthy a)
      end;
    destruct pc, dr, st, dc as [[]|]; reflexivity.
Qed.

(** X15.  Painting happens only on request: over any chain from any
    state, the context receives exactly one [stroke] or [fill] command
    per [stroke] or [fill] call, and none from any other method. *)
Theorem one_paint_command_per_paint_call (cs : list Call) (d : Drawing) :
  count is_paint_command (emitted (chain cs) d) = paints cs.
Proof.
  revert d; induction cs as [|c cs IH]; intros d; [reflexivity|].
  cbn [chain]. rewrite emitted_seq, count_app, paints_cons.
  rewrite invoke_paint_commands, IH. reflexivity.
Qed.

(** X16.  [split ()] forgets where the subpath started: a second
    [split ()] sends nothing and changes nothing, and a [close ()] right
    after it sends only [closePath], with no line back to the old start.
    The position itself is kept. *)
Theorem split_drops_the_start (d : Drawing) :
  split (exec split d) = (tt, exec split d, [])
  /\ emitted close (exec split d) = [Ctx.closePath]
  /\ pos (exec split d) = pos d
  /\ posStart (exec split d) = None.
Proof.
  unfold emitted, exec. rewrite (split_closed d). cbn [fst snd].
  rewrite split_closed, close_closed. repeat split.
Qed.

End DrawingModel.

(** * The statements on integer coordinates *)

Local Open Scope Z_scope.

(** [xy (a, b)] as a call, and [new Drawing (context)]. *)
Local Abbreviation point a b := (@call_xy Z (xnum (Some a)) (Some b)).
Local Abbreviation fresh := (@constructor Z ZNumber).

(** [xy (1, 1).stroke ().circle (3)]: the move precedes the reset. *)
Example circle_after_stroke :
  emitted (circle 3) (exec (chain [point 1 1; call_stroke None None]) fresh)
  = [Ctx.moveTo 4 1; Ctx.beginPath; Ctx.arc 1 1 3 0 Tau (Some false)].
Proof. reflexivity. Qed.

(** [ellipse], by contrast, resets first. *)
Example ellipse_after_stroke :
  hd_error (emitted (ellipse 3 2 None None None None)
              (exec (chain [point 1 1; call_stroke None None]) fresh))
  = Some Ctx.beginPath.
Proof. reflexivity. Qed.

(** The claim of C2 fails on [xy (0, 0).xy (1, 1)] followed by
    [curve (5, 5).xy (2, 2)]: no curve is pending, yet the pair of calls
    sends a line (the flush of [(1, 1)]), and flushing the destination
    afterwards, here by [stroke ()], sends a line to [(2, 2)] itself. *)
Lemma curve_then_point_sends_lines :
  let d := exec (chain [point 0 0; point 1 1]) fresh in
  let pair := chain [call_curve 5 5 None None; point 2 2] in
  drawCurve d = None
  /\ emitted pair d = [Ctx.lineTo 1 1; Ctx.quadraticCurveTo 5 5 2 2]
  /\ count is_lineTo (emitted pair d) <> 0%nat
  /\ emitted (stroke None None) (exec pair d) = [Ctx.lineTo 2 2; Ctx.stroke].
Proof. repeat split; try reflexivity. discriminate. Qed.

(** The claim of C4 fails on [xy (0, 0).xy (1, 1).xy (0, 0).close ()]: the
    last destination equals the start point, and the line back to the
    start is sent all the same. *)
Lemma close_sends_line_back_to_equal_start :
  let trace :=
    emitted (chain [point 0 0; point 1 1; point 0 0; call_close]) fresh in
  trace = [Ctx.moveTo 0 0; Ctx.lineTo 1 1; Ctx.lineTo 0 0; Ctx.lineTo 0 0;
           Ctx.closePath]
  /\ trace <> [Ctx.moveTo 0 0; Ctx.lineTo 1 1; Ctx.lineTo 0 0; Ctx.closePath].
Proof. split; [reflexivity | discriminate]. Qed.

(** The claim of C6 fails on [curve (1, 1)] followed by [split ()], by
    [rect (2, 2)] or, with no subpath open, by [close ()]: the deferred
    curve is still there afterwards. *)
Lemma drawCurve_survives_split_and_rect :
  drawCurve (exec (chain [call_curve 1 1 None None; call_split]) fresh)
    = Some (quadratic_fn 1 1)
  /\ drawCurve (exec (chain [call_curve 1 1 None None; call_rect 2 2 None]) fresh)
    = Some (quadratic_fn 1 1)
  /\ drawCurve (exec (chain [call_curve 1 1 None None; call_close]) fresh)
    = Some (quadratic_fn 1 1)
  /\ drawCurve (exec (chain [call_curve 1 1 None None; call_split]) fresh)
    <> None.
Proof. repeat split; try reflexivity. discriminate. Qed.

(** The claim of C10 fails on a fresh drawing: after
    [curve (1, 1).xy (2, 2)] no subpath is open, and the next flush sends
    the end point as a move, not as a line. *)
Lemma consumed_endpoint_flushed_as_move :
  let d := exec (chain [call_curve 1 1 None None; point 2 2]) fresh in
  emitted (chain [call_curve 1 1 None None; point 2 2]) fresh
    = [Ctx.quadraticCurveTo 1 1 2 2]
  /\ posDrawn d = false
  /\ emitted (invoke (point 3 3)) d = [Ctx.moveTo 2 2]
  /\ emitted (stroke None None) d = [Ctx.moveTo 2 2; Ctx.stroke]
  /\ emitted split d = [Ctx.moveTo 2 2]
  /\ count is_lineTo (emitted (stroke None None) d) = 0%nat.
Proof. repeat split; reflexivity. Qed.

(** C4 on [xy (0, 0).xy (3, 0).xy (3, 4).close ()]. *)
Lemma points_then_close_witness :
  posDrawn fresh = true /\ drawCurve fresh = None
  /\ (posStart fresh = None \/ pendingPathClose fresh = true)
  /\ point_adding (point 0 0) = true
  /\ forallb point_adding [point 3 0; point 3 4] = true
  /\ emitted (chain [point 0 0; point 3 0; point 3 4; call_close]) fresh
     = [Ctx.moveTo 0 0; Ctx.lineTo 3 0; Ctx.lineTo 3 4; Ctx.lineTo 0 0;
        Ctx.closePath].
Proof.
  split; [reflexivity|]. split; [reflexivity|].
  split; [left; reflexivity|]. split; [reflexivity|]. split; [reflexivity|].
  exact (proj1 (points_then_close fresh (point 0 0) [point 3 0; point 3 4]
                  eq_refl eq_refl (or_introl eq_refl) eq_refl eq_refl)).
Defined.

(** C6 on [curve (1, 1).dx (3).dy (4)]. *)
Lemma drawCurve_lifetime_witness :
  let d := exec (chain [call_curve 1 1 None None]) fresh in
  point_adding (@call_dx Z 3) = true
  /\ point_adding (@call_dy Z 4) = true
  /\ drawCurve (exec (dx 3) d) = None
  /\ emitted (dx 3) d = [Ctx.quadraticCurveTo 1 1 3 0]
  /\ emitted (dy 4) (exec (dx 3) d) = [Ctx.moveTo 3 0].
Proof.
  intros d. split; [reflexivity|]. split; [reflexivity|].
  pose proof (drawCurve_lifetime d) as (_ & _ & _ & H & _).
  destruct (H (call_dx 3) eq_refl) as (H1 & _ & _).
  split; [exact H1|]. split; reflexivity.
Defined.

(** C5 on [xy (1, 1).stroke ().xy (5, 5)]. *)
Lemma point_after_paint_witness :
  let d := exec (chain [point 1 1]) fresh in
  is_paint (@call_stroke Z None None) = true
  /\ point_adding (point 5 5) = true
  /\ emitted (invoke (point 5 5)) (exec (stroke None None) d) = [Ctx.beginPath]
  /\ emitted (_advancePath None None)
       (exec (invoke (point 5 5)) (exec (stroke None None) d))
     = [Ctx.moveTo 5 5].
Proof.
  intros d. split; [reflexivity|]. split; [reflexivity|].
  pose proof (point_after_paint_starts_new_path d (call_stroke None None)
                (point 5 5) None None eq_refl eq_refl) as H.
  split; [exact (proj1 (proj2 H)) | exact (proj2 (proj2 (proj2 (proj2 H))))].
Defined.

(** C7 on [xy (0, 0).xy (1, 1)] followed by [split ()] or [join ()] and
    then [xy (1, 1)], the position already held. *)
Lemma split_disconnects_join_connects_witness :
  let d := exec (chain [point 0 0; point 1 1]) fresh in
  point_adding (point 1 1) = true
  /\ emitted (invoke (point 1 1)) (exec split d) = []
  /\ emitted (_advancePath None None) (exec (invoke (point 1 1)) (exec split d))
     = [Ctx.moveTo 1 1]
  /\ emitted (_advancePath None None) (exec (invoke (point 1 1)) (exec join d))
     = [Ctx.lineTo 1 1].
Proof.
  intros d. split; [reflexivity|].
  pose proof (split_disconnects_join_connects d (point 1 1) None None eq_refl)
    as [(S1 & _ & S3) (_ & J)].
  split; [exact S1|]. split; [exact S3 | exact J].
Defined.

(** C8 on [text ("A").xy (7, 7).font ("serif").text ("B").xy (9, 9).fill ()]. *)
Lemma text_snapshots_witness :
  no_paint [point 7 7; @call_font Z "serif"] = true
  /\ no_paint [point 9 9] = true
  /\ exists l0 l1 l2,
       pendingText
         (exec (chain [call_text "A" None None; point 7 7; call_font "serif";
                       call_text "B" None None; point 9 9]) fresh)
       = l0 ++ [("A"%string, mkPos 0 0,
                 mkTextStyle None (Some "start"%string) (Some "alphabetic"%string))]
            ++ l1 ++ [("B"%string, mkPos 7 7,
                       mkTextStyle (Some "serif"%string) (Some "start"%string)
                                   (Some "alphabetic"%string))]
            ++ l2.
Proof.
  split; [reflexivity|]. split; [reflexivity|].
  destruct (text_snapshots fresh "A" "B" None None None None
              [point 7 7; call_font "serif"] [point 9 9] eq_refl eq_refl)
    as (l0 & l1 & l2 & T & _).
  exists l0, l1, l2. vm_compute in T |- *. exact T.
Defined.

(** C10 on [xy (0, 0).xy (1, 1).curve (5, 5).xy (2, 2)], then a flush. *)
Lemma consumed_curve_endpoint_witness :
  let d := exec (chain [point 0 0; point 1 1; call_curve 5 5 None None]) fresh in
  drawCurve d = Some (quadratic_fn 5 5)
  /\ posDrawn (exec (xy_point 2 2) d) = false
  /\ emitted split (exec (xy_point 2 2) d) = [Ctx.lineTo 2 2].
Proof.
  intros d. split; [reflexivity|].
  pose proof (consumed_curve_endpoint_is_flushed_again d (quadratic_fn 5 5)
                2 2 eq_refl) as (_ & _ & P & _ & _ & _ & S & _).
  split; [exact P | exact S].
Defined.

(** X3 on [xy (0, 0).xy (1, 1).circle (3)] followed by [close ()]. *)
Lemma close_and_circle_end_the_subpath_witness :
  let d := exec (chain [point 0 0; point 1 1]) fresh in
  restarts_subpath (@call_circle Z 3) = true
  /\ point_adding (point 5 5) = true
  /\ emitted close (exec (circle 3) d) = [Ctx.closePath]
  /\ emitted (_advancePath None None)
       (exec (invoke (point 5 5)) (exec (circle 3) d))
     = [Ctx.moveTo 5 5].
Proof.
  intros d. split; [reflexivity|]. split; [reflexivity|].
  pose proof (close_and_circle_end_the_subpath (call_circle 3) (point 5 5) d
                None None eq_refl eq_refl) as (_ & _ & _ & C & _ & M).
  split; [exact C | exact M].
Defined.

(** X4 on [xy (7, 7).rect (2, 2)]: the point [(7, 7)] is never sent. *)
Lemma anchored_calls_consume_the_position_witness :
  let d := exec (chain [point 7 7]) fresh in
  anchored (@call_rect Z 2 2 None) = true
  /\ emitted (rect 2 2 None) d = [Ctx.rect 7 7 2 2]
  /\ emitted (_advancePath None None) (exec (rect 2 2 None) d) = [].
Proof.
  intros d. split; [reflexivity|]. split; [reflexivity|].
  exact (proj2 (proj2 (proj2 (proj2 (proj2
    (anchored_calls_consume_the_position (call_rect 2 2 None) d None None
       eq_refl)))))).
Defined.

(** X6 on a generator yielding [(0, 0)], [(3, 0)], [(3, 4)]. *)
Lemma generator_is_chain_of_points_witness :
  drawCurve fresh = None
  /\ emitted (xy (xfunc (pairs_of [mkPos 0 0; mkPos 3 0; mkPos 3 4])) None) fresh
     = emitted (chain [point 0 0; point 3 0; point 3 4]) fresh.
Proof.
  split; [reflexivity|].
  exact (proj2 (generator_is_chain_of_points (mkPos 0 0)
                  [mkPos 3 0; mkPos 3 4] None fresh eq_refl)).
Defined.

(** X7 on [arcTo (1, 1, 2)] followed by [curve (3, 3)]. *)
Lemma later_curve_replaces_earlier_witness :
  sets_curve (@call_arcTo Z 1 1 2) = true
  /\ sets_curve (@call_curve Z 3 3 None None) = true
  /\ drawCurve (exec (curve 3 3 None None) (exec (arcTo 1 1 2) fresh))
     = Some (quadratic_fn 3 3).
Proof.
  split; [reflexivity|]. split; [reflexivity|].
  pose proof (later_curve_replaces_earlier (call_arcTo 1 1 2)
                (call_curve 3 3 None None) fresh eq_refl eq_refl) as (E & _).
  exact (f_equal (fun r => drawCurve (snd (fst r))) E).
Defined.

(** X8 on [image (src, 0, 5)]. *)
Lemma image_without_usable_size_witness :
  num_truthy 0 && num_truthy 5 = false
  /\ emitted (image "src" (Some 0) (Some 5)) fresh = [Ctx.drawImage "src" 0 0].
Proof.
  split; [reflexivity|].
  exact (f_equal snd
           (proj1 (image_without_usable_size "src" 0 5 fresh eq_refl))).
Defined.

(** X11 on [rotate (1)] called while a path reset is pending. *)
Lemma forwarders_leave_the_drawing_alone_witness :
  let d := exec (chain [point 1 1; call_stroke None None]) fresh in
  forwards_only (@call_rotate Z 1) = true
  /\ pendingPathClose d = true
  /\ exec (rotate 1) d = d.
Proof.
  intros d. split; [reflexivity|]. split; [reflexivity|].
  exact (proj1 (forwarders_leave_the_drawing_alone (call_rotate 1) d eq_refl)).
Defined.

(** X12 on [xy (1, 1).xy (2, 2).stroke ()]. *)
Lemma pending_reset_has_no_point_waiting_witness :
  let d := exec (chain [point 1 1; point 2 2; call_stroke None None]) fresh in
  pendingPathClose d = true /\ posDrawn d = true.
Proof.
  intros d. split; [reflexivity|].
  exact (proj1 (pending_reset_has_no_point_waiting
                  [point 1 1; point 2 2; call_stroke None None] fresh
                  (fun _ => eq_refl) eq_refl)).
Defined.
